(** * Canner inline suggestions: a model of [InlineSuggestionManager]

    Source: browser-extension/src/content/content.ts, class
    [InlineSuggestionManager] (lines 31-450).

    The class is embedded shallowly.  JavaScript strings are sequences of
    code units; the model works on the code units 0..255 (the Latin-1 part
    of UTF-16), written [list ascii].  The DOM is modelled by explicit
    state: the tracked element, the window selection, the ghost overlays
    appended to [document.body], and the fields of the manager object.
    [Date.now()] readings are handler arguments.  The asynchronous
    [handleInput] is split at its [await] into the synchronous prologue and
    the continuation run by the storage callback, so that other events can
    come between the two.

    What the model takes from the browser:
    - the text of a contenteditable region is the list of its Text nodes
      in document order; elements between them carry no text and are left
      out, and the selection ends in the tracked element;
    - pixel values are rationals, rounding of floating point is left out;
    - [offsetWidth] is 0 for a node that is not in the document (it has no
      layout box), and the width of the layout box otherwise;
    - a text field is a [textarea] or an [input] of type text, the two
      kinds the manager is attached to; an assignment to [value] stores
      what the element keeps of the string: a [textarea] turns CR LF
      and CR into LF, a single-line [input] drops CR and LF; and
      [setSelectionRange] clamps to the length of the stored value;
    - calls into the DOM do not throw, so the [catch] of [handleInput] is
      never entered;
    - listeners of the host page on the same events are not part of the
      model. *)

From Stdlib Require Import Ascii String.
From Stdlib Require Import List Bool Arith Lia ZArith QArith.
From Stdlib Require Import Sorted Permutation Lqa.
Import Corelib.Init.Datatypes.
Import ListNotations.

Close Scope Q_scope.
Close Scope Z_scope.
Open Scope nat_scope.
Open Scope list_scope.

(** ** JavaScript string primitives *)

Module Js.

Definition str := list ascii.

(** String literals of the source. *)
Definition lit (s : string) : str := list_ascii_of_string s.

Definition code (c : ascii) : nat := nat_of_ascii c.

(** The characters matched by [\s] and stripped by [trim]: WhiteSpace
    and LineTerminator of ECMAScript, restricted to code units below
    256: TAB, LF, VT, FF, CR, SPACE and NO-BREAK SPACE. *)
Definition is_ws (c : ascii) : bool :=
  let n := code c in
  ((9 <=? n) && (n <=? 13)) || (n =? 32) || (n =? 160).

(** [toLowerCase] on one code unit: A-Z, and the Latin-1 capitals
    U+00C0..U+00DE without the multiplication sign U+00D7. *)
Definition lower_char (c : ascii) : ascii :=
  let n := code c in
  if ((65 <=? n) && (n <=? 90))
     || ((192 <=? n) && (n <=? 222) && negb (n =? 215))
  then ascii_of_nat (n + 32) else c.

Definition toLowerCase (s : str) : str := map lower_char s.

Definition ascii_eqb (a b : ascii) : bool := Ascii.eqb a b.

Fixpoint str_eqb (a b : str) : bool :=
  match a, b with
  | [], [] => true
  | x :: a', y :: b' => ascii_eqb x y && str_eqb a' b'
  | _, _ => false
  end.

(** [s.startsWith(p)] *)
Fixpoint startsWith (s p : str) : bool :=
  match p, s with
  | [], _ => true
  | x :: p', y :: s' => ascii_eqb x y && startsWith s' p'
  | _ :: _, [] => false
  end.

(** [s.includes(p)] *)
Fixpoint includes (s p : str) : bool :=
  startsWith s p ||
  match s with
  | [] => false
  | _ :: s' => includes s' p
  end.

(** [s.substring(a, b)] for [a <= b]; both arguments are clamped to the
    length, as [firstn] and [skipn] do. *)
Definition substring (s : str) (a b : nat) : str := firstn (b - a) (skipn a s).

(** [s.substring(a)] *)
Definition substring_from (s : str) (a : nat) : str := skipn a s.

Fixpoint trimStart (s : str) : str :=
  match s with
  | [] => []
  | c :: s' => if is_ws c then trimStart s' else s
  end.

Definition trimEnd (s : str) : str := rev (trimStart (rev s)).

Definition trim (s : str) : str := trimEnd (trimStart s).

(** [s.split(/\s+/)]: the pieces between maximal whitespace runs.
    [prev_ws] records that the previous character belonged to a
    separator, so that a run of whitespace separates once.  The result
    is never empty: the empty string splits into one empty piece. *)
Fixpoint split_ws_from (prev_ws : bool) (s : str) : list str :=
  match s with
  | [] => [[]]
  | c :: s' =>
      if is_ws c then
        if prev_ws then split_ws_from true s'
        else [] :: split_ws_from true s'
      else
        match split_ws_from false s' with
        | w :: ws => (c :: w) :: ws
        | [] => [[c]]
        end
  end.

Definition split_ws (s : str) : list str := split_ws_from false s.

(** [xs[xs.length - 1] || ''] *)
Definition last_or_empty (xs : list str) : str := last xs [].

(** [s.lastIndexOf(c)] for a one-character needle: [None] stands for -1. *)
Fixpoint lastIndexOf_from (i : nat) (c : ascii) (s : str) : option nat :=
  match s with
  | [] => None
  | x :: s' =>
      match lastIndexOf_from (S i) c s' with
      | Some j => Some j
      | None => if ascii_eqb x c then Some i else None
      end
  end.

Definition lastIndexOf (s : str) (c : ascii) : option nat :=
  lastIndexOf_from 0 c s.

(** [a || b] on a value that is a string, [undefined] or [null]: the
    empty string is falsy as well. *)
Definition or_else (a : option str) (b : str) : str :=
  match a with
  | Some (c :: s) => c :: s
  | _ => b
  end.

Definition space : ascii := " "%char.
Definition newline : ascii := ascii_of_nat 10.
Definition carriage_return : ascii := ascii_of_nat 13.
Definition tab : ascii := ascii_of_nat 9.
Definition nbsp : ascii := ascii_of_nat 160.

End Js.

Import Js.

(** ** The page: records of the cache, the element, the selection, overlays *)

Module Dom.

(** A cached response, as stored under [responses] in
    [chrome.storage.local]; a missing field reads [undefined]. *)
Record ResponseRecord := {
  id : str;
  title : option str;
  content : option str;
  tags : list str
}.

(** The tracked element.  [contenteditable] is the value of
    [getAttribute('contenteditable')]; [value] and [selectionStart] are
    those of a text field; [textNodes] are the Text nodes below the
    element in document order (what a [TreeWalker] with [SHOW_TEXT]
    visits), so that [textContent] is their concatenation. *)
Record Element := {
  contenteditable : option str;
  tagName : str;
  value : str;
  selectionStart : nat;
  textNodes : list str
}.

(** The end boundary point [(endContainer, endOffset)] of the first
    range of the window selection: in the [i]-th text node at offset
    [o], or in the element itself before its [k]-th text node. *)
Inductive Boundary :=
| InText (i o : nat)
| InElement (k : nat).

Record Rect := {
  rleft : Q;
  rtop : Q;
  rright : Q;
  rwidth : Q;
  rheight : Q
}.

Inductive Platform := linkedin | twitter.

(** A ghost overlay [div.canner-ghost-suggestion] with the style
    properties the manager writes.  [omaxWidth = None] is the relative
    [calc(100% - 40px)] of the LinkedIn style sheet text. *)
Record Overlay := {
  oid : nat;
  otext : str;
  oplatform : Platform;
  oleft : option Q;
  otop : option Q;
  owidth : option Q;
  omaxWidth : option Q
}.

(** What a handler reads from the page besides the element: the host
    name, the bounding rectangles of the selection range and of the
    element, the parsed computed font size ([None] is [NaN]), and the
    width the layout gives to an overlay that is in the document. *)
Record Env := {
  hostname : str;
  rangeRect : Rect;
  containerRect : Rect;
  fontSize : option Q;
  layoutWidth : Overlay -> Q
}.

(** [text.textContent] of the contents of a range from the start of
    the element to the boundary. *)
Definition textBefore (nodes : list str) (b : Boundary) : str :=
  match b with
  | InText i o => concat (firstn i nodes) ++ firstn o (nth i nodes [])
  | InElement k => concat (firstn k nodes)
  end.

Definition textAfter (nodes : list str) (b : Boundary) : str :=
  match b with
  | InText i o => skipn o (nth i nodes []) ++ concat (skipn (S i) nodes)
  | InElement k => concat (skipn k nodes)
  end.

(** A boundary point that exists in the element. *)
Definition valid_boundary (nodes : list str) (b : Boundary) : Prop :=
  match b with
  | InText i o => i < length nodes /\ o <= length (nth i nodes [])
  | InElement k => k <= length nodes
  end.

(** The value of a [textarea] that is read back after an assignment:
    the assigned string with its line breaks normalized, CR LF and a
    single CR each becoming LF. *)
Fixpoint normalizeNewlines (s : str) : str :=
  match s with
  | [] => []
  | c :: s' =>
      if ascii_eqb c carriage_return then
        newline ::
        match s' with
        | d :: s'' =>
            if ascii_eqb d newline then normalizeNewlines s''
            else normalizeNewlines s'
        | [] => []
        end
      else c :: normalizeNewlines s'
  end.

(** The value sanitization of an [input] of type text: LF and CR are
    removed. *)
Definition stripNewlines (s : str) : str :=
  filter (fun c => negb (ascii_eqb c newline || ascii_eqb c carriage_return))
    s.

(** [e.value = s] followed by a read of [e.value]. *)
Definition assignValue (e : Element) (s : str) : str :=
  if str_eqb (tagName e) (lit "TEXTAREA") then normalizeNewlines s
  else if str_eqb (tagName e) (lit "INPUT") then stripNewlines s
  else s.

(** [node.remove()] on the children of [document.body]. *)
Definition removeNode (n : nat) (b : list Overlay) : list Overlay :=
  filter (fun o => negb (oid o =? n)) b.

(** [document.body.appendChild(o)]: a node already there is moved. *)
Definition appendChild (o : Overlay) (b : list Overlay) : list Overlay :=
  removeNode (oid o) b ++ [o].

Definition inDocument (n : nat) (b : list Overlay) : bool :=
  existsb (fun o => oid o =? n) b.

End Dom.

Import Dom.

(** ** The manager *)

Module Manager.

(** The fields of one [InlineSuggestionManager] together with the part
    of the page it reads and writes.  [ghostElement] holds the identity
    of the overlay node; [body] lists the overlays that are children of
    [document.body].  [pending] are the prefixes of the [handleInput]
    calls that wait for the storage callback, [timers] counts the
    scheduled callbacks of the delete keys. *)
Record World := {
  element : Element;
  selection : option Boundary;
  body : list Overlay;
  next_id : nat;
  ghostElement : option nat;
  currentSuggestion : option ResponseRecord;
  isComposing : bool;
  suppressedUntil : Z;
  pending : list str;
  timers : nat
}.

Definition set_element (e : Element) (w : World) : World :=
  {| element := e; selection := selection w; body := body w;
     next_id := next_id w; ghostElement := ghostElement w;
     currentSuggestion := currentSuggestion w;
     isComposing := isComposing w; suppressedUntil := suppressedUntil w;
     pending := pending w; timers := timers w |}.

Definition set_selection (b : option Boundary) (w : World) : World :=
  {| element := element w; selection := b; body := body w;
     next_id := next_id w; ghostElement := ghostElement w;
     currentSuggestion := currentSuggestion w;
     isComposing := isComposing w; suppressedUntil := suppressedUntil w;
     pending := pending w; timers := timers w |}.

Definition set_body (b : list Overlay) (w : World) : World :=
  {| element := element w; selection := selection w; body := b;
     next_id := next_id w; ghostElement := ghostElement w;
     currentSuggestion := currentSuggestion w;
     isComposing := isComposing w; suppressedUntil := suppressedUntil w;
     pending := pending w; timers := timers w |}.

Definition set_next_id (n : nat) (w : World) : World :=
  {| element := element w; selection := selection w; body := body w;
     next_id := n; ghostElement := ghostElement w;
     currentSuggestion := currentSuggestion w;
     isComposing := isComposing w; suppressedUntil := suppressedUntil w;
     pending := pending w; timers := timers w |}.

Definition set_ghostElement (g : option nat) (w : World) : World :=
  {| element := element w; selection := selection w; body := body w;
     next_id := next_id w; ghostElement := g;
     currentSuggestion := currentSuggestion w;
     isComposing := isComposing w; suppressedUntil := suppressedUntil w;
     pending := pending w; timers := timers w |}.

Definition set_currentSuggestion (r : option ResponseRecord) (w : World)
  : World :=
  {| element := element w; selection := selection w; body := body w;
     next_id := next_id w; ghostElement := ghostElement w;
     currentSuggestion := r;
     isComposing := isComposing w; suppressedUntil := suppressedUntil w;
     pending := pending w; timers := timers w |}.

Definition set_isComposing (c : bool) (w : World) : World :=
  {| element := element w; selection := selection w; body := body w;
     next_id := next_id w; ghostElement := ghostElement w;
     currentSuggestion := currentSuggestion w;
     isComposing := c; suppressedUntil := suppressedUntil w;
     pending := pending w; timers := timers w |}.

Definition set_suppressedUntil (t : Z) (w : World) : World :=
  {| element := element w; selection := selection w; body := body w;
     next_id := next_id w; ghostElement := ghostElement w;
     currentSuggestion := currentSuggestion w;
     isComposing := isComposing w; suppressedUntil := t;
     pending := pending w; timers := timers w |}.

Definition set_pending (p : list str) (w : World) : World :=
  {| element := element w; selection := selection w; body := body w;
     next_id := next_id w; ghostElement := ghostElement w;
     currentSuggestion := currentSuggestion w;
     isComposing := isComposing w; suppressedUntil := suppressedUntil w;
     pending := p; timers := timers w |}.

Definition set_timers (n : nat) (w : World) : World :=
  {| element := element w; selection := selection w; body := body w;
     next_id := next_id w; ghostElement := ghostElement w;
     currentSuggestion := currentSuggestion w;
     isComposing := isComposing w; suppressedUntil := suppressedUntil w;
     pending := pending w; timers := n |}.

(** The constructor: no overlay, no suggestion, not composing,
    [suppressedUntil = 0]. *)
Definition create (e : Element) (sel : option Boundary) : World :=
  {| element := e; selection := sel; body := []; next_id := 0;
     ghostElement := None; currentSuggestion := None;
     isComposing := false; suppressedUntil := 0%Z;
     pending := []; timers := 0 |}.

(** [this.element.getAttribute('contenteditable') === 'true'] *)
Definition is_contenteditable (e : Element) : bool :=
  match contenteditable e with
  | Some v => str_eqb v (lit "true")
  | None => false
  end.

(** [tagName === 'TEXTAREA' || tagName === 'INPUT'] *)
Definition is_field (e : Element) : bool :=
  str_eqb (tagName e) (lit "TEXTAREA") || str_eqb (tagName e) (lit "INPUT").

(** [text.trim().split(/\s+/)] and then the last piece. *)
Definition lastWord (text : str) : str :=
  let words := split_ws (trim text) in
  last_or_empty words.

(** [getCurrentText] (lines 148-170). *)
Definition getCurrentText (w : World) : str :=
  let e := element w in
  if is_contenteditable e then
    match selection w with
    | None => []
    | Some range_end => lastWord (textBefore (textNodes e) range_end)
    end
  else if is_field e then
    let cursorPos := selectionStart e in
    lastWord (substring (value e) 0 cursorPos)
  else [].

(** [s.content || s.title || ""] *)
Definition suggestionText (r : ResponseRecord) : str :=
  or_else (content r) (or_else (title r) []).

Definition matchesPrefix (prefixLower : str) (r : ResponseRecord) : bool :=
  startsWith (toLowerCase (suggestionText r)) prefixLower.

(** [fetchSuggestions] (lines 172-186); [storage] is [result.responses]. *)
Definition fetchSuggestions (storage : option (list ResponseRecord))
    (prefix : str) : list ResponseRecord :=
  let responses := match storage with Some l => l | None => [] end in
  let prefixLower := toLowerCase prefix in
  filter (matchesPrefix prefixLower) responses.

(** [clearGhostElement] (lines 338-343). *)
Definition clearGhostElement (w : World) : World :=
  match ghostElement w with
  | Some g => set_ghostElement None (set_body (removeNode g (body w)) w)
  | None => w
  end.

(** [clearSuggestion] (lines 345-348). *)
Definition clearSuggestion (w : World) : World :=
  clearGhostElement (set_currentSuggestion None w).

(** *** Overlay rendering *)

Definition Qlt_bool (a b : Q) : bool := negb (Qle_bool b a).

(** [Math.min] *)
Definition Qmin_js (a b : Q) : Q := if Qle_bool a b then a else b.

(** [overlay.offsetWidth]: the width of the layout box of the node,
    and 0 for a node that has no layout box because it is not in the
    document. *)
Definition offsetWidth (env : Env) (w : World) (o : Overlay) : Q :=
  if inDocument (oid o) (body w) then layoutWidth env o else 0%Q.

(** [parseFloat(computedStyle.fontSize) || 16]: [NaN] and 0 are falsy. *)
Definition fontSizeOr16 (env : Env) : Q :=
  match fontSize env with
  | Some q => if Qeq_bool q 0 then 16%Q else q
  | None => 16%Q
  end.

(** [positionLinkedInOverlay] (lines 268-284). *)
Definition positionLinkedInOverlay (env : Env) (overlay : Overlay)
    (w : World) : World :=
  let containerRect := containerRect env in
  let overlay' :=
    {| oid := oid overlay; otext := otext overlay;
       oplatform := oplatform overlay;
       oleft := Some (rleft containerRect + 10)%Q;
       otop := Some (rtop containerRect + 10)%Q;
       owidth := Some (rwidth containerRect - 20)%Q;
       omaxWidth := omaxWidth overlay |} in
  set_body (appendChild overlay' (body w)) w.

(** [positionTwitterOverlay] (lines 286-336). *)
Definition positionTwitterOverlay (env : Env) (overlay : Overlay)
    (w : World) : World :=
  match selection w with
  | None => w
  | Some _ =>
      let rect := rangeRect env in
      let containerRect := containerRect env in
      let left := (rright rect + 1)%Q in
      let fontSize := fontSizeOr16 env in
      let baselineOffset := (fontSize * (17 # 20))%Q in
      let top :=
        (rtop rect + (rheight rect - fontSize) / 2 + baselineOffset
         - fontSize)%Q in
      let overlayWidth := offsetWidth env w overlay in
      let place (maxWidth : option Q) :=
        let overlay' :=
          {| oid := oid overlay; otext := otext overlay;
             oplatform := oplatform overlay;
             oleft := Some left; otop := Some top;
             owidth := owidth overlay; omaxWidth := maxWidth |} in
        set_body (appendChild overlay' (body w)) w in
      if Qlt_bool (rright containerRect - 5)%Q (left + overlayWidth)%Q then
        let availableWidth := (rright containerRect - left - 10)%Q in
        if Qlt_bool 100 availableWidth then
          place (Some (Qmin_js 250 availableWidth))
        else if Qlt_bool 50 availableWidth then
          place (Some availableWidth)
        else
          set_body (removeNode (oid overlay) (body w)) w
      else place (omaxWidth overlay)
  end.

(** [createGhostElement] (lines 217-266). *)
Definition createGhostElement (env : Env) (text _currentText _fullText : str)
    (platform : Platform) (w : World) : World :=
  let w := clearGhostElement w in
  if is_contenteditable (element w) then
    let n := next_id w in
    let w := set_next_id (S n) w in
    match platform with
    | linkedin =>
        let overlay :=
          {| oid := n; otext := _fullText; oplatform := linkedin;
             oleft := None; otop := None; owidth := None;
             omaxWidth := None |} in
        let w := positionLinkedInOverlay env overlay w in
        set_ghostElement (Some n) w
    | twitter =>
        let overlay :=
          {| oid := n; otext := text; oplatform := twitter;
             oleft := None; otop := None; owidth := None;
             omaxWidth := Some 300%Q |} in
        let w := positionTwitterOverlay env overlay w in
        set_ghostElement (Some n) w
    end
  else w.

(** [showSuggestion] (lines 188-215). *)
Definition showSuggestion (env : Env) (suggestion : ResponseRecord)
    (currentText : str) (w : World) : World :=
  let w := set_currentSuggestion (Some suggestion) w in
  let fullText := suggestionText suggestion in
  let isTwitter :=
    includes (hostname env) (lit "twitter")
    || includes (hostname env) (lit "x.com") in
  if isTwitter then
    let displayText :=
      if startsWith (toLowerCase fullText) (toLowerCase currentText)
      then substring_from fullText (length currentText)
      else fullText in
    let maxLength := 70 in
    let displayText :=
      if maxLength <? length displayText
      then substring displayText 0 (maxLength - 3) ++ lit "..."
      else displayText in
    createGhostElement env displayText currentText fullText twitter w
  else
    createGhostElement env fullText currentText fullText linkedin w.

(** *** Input events *)

(** [handleInput] up to its [await] (lines 72-102): the checks; the
    result carries the current text when the handler goes on to ask
    the storage for suggestions. *)
Definition handleInput_start (now : Z) (w : World) : World * option str :=
  if (now <? suppressedUntil w)%Z then (clearSuggestion w, None)
  else if isComposing w then (w, None)
  else
    let currentText := getCurrentText w in
    if length currentText <? 2 then (clearSuggestion w, None)
    else if is_contenteditable (element w)
            && (length (trim (concat (textNodes (element w)))) =? 0)
    then (clearSuggestion w, None)
    else (w, Some currentText).

(** [handleInput] after the [await] (lines 102-121), run when the
    storage callback delivers [result.responses]. *)
Definition handleInput_resume (env : Env)
    (storage : option (list ResponseRecord)) (currentText : str)
    (w : World) : World :=
  let suggestions := fetchSuggestions storage currentText in
  match suggestions with
  | [] => clearSuggestion w
  | _ :: _ =>
      let matches :=
        filter (matchesPrefix (toLowerCase currentText)) suggestions in
      match matches with
      | [] => clearSuggestion w
      | suggestion :: _ => showSuggestion env suggestion currentText w
      end
  end.

(** [handleInput] when the storage callback runs before any other
    event: prologue and continuation in one step. *)
Definition handleInput (now : Z) (env : Env)
    (storage : option (list ResponseRecord)) (w : World) : World :=
  match handleInput_start now w with
  | (w', Some currentText) => handleInput_resume env storage currentText w'
  | (w', None) => w'
  end.

(** An [input] event reaches the listener: the prologue runs, and a
    storage request it makes is queued until its callback. *)
Definition dispatchInput (now : Z) (w : World) : World :=
  match handleInput_start now w with
  | (w', Some currentText) => set_pending (pending w' ++ [currentText]) w'
  | (w', None) => w'
  end.

(** *** Accepting a suggestion *)

(** The loop of [replaceInInput] (lines 433-437).  [wordStart value n]
    is the final [startPos] of a run that is entered with
    [startPos = n - 1]: the scan moves left until it is below 0 or on a
    space or newline, and then steps one to the right. *)
Fixpoint wordStart (value : str) (n : nat) : nat :=
  match n with
  | 0 => 0
  | S m =>
      match nth_error value m with
      | Some c =>
          if ascii_eqb c space || ascii_eqb c newline then S m
          else wordStart value m
      | None => wordStart value m
      end
  end.

(** [replaceInInput] (lines 427-449).  [now] is the clock reading of
    the listener that the dispatched [input] event runs.  The element
    keeps [assignValue input newValue] of the assigned string, and
    [setSelectionRange] clamps the caret to its length. *)
Definition replaceInInput (fullText _currentText : str) (now : Z)
    (w : World) : World :=
  let input := element w in
  let cursorPos := selectionStart input in
  let value := value input in
  let startPos := wordStart value cursorPos in
  let newValue :=
    substring value 0 startPos ++ fullText ++ substring_from value cursorPos in
  let stored := assignValue input newValue in
  let newCursorPos := startPos + length fullText in
  let input' :=
    {| contenteditable := contenteditable input; tagName := tagName input;
       value := stored;
       selectionStart := Nat.min newCursorPos (length stored);
       textNodes := textNodes input |} in
  dispatchInput now (set_element input' w).

(** The [TreeWalker] loop of [replaceInContentEditable] (lines
    389-404): the first text node whose end is at or after
    [startIndex], with the offset of [startIndex] in it. *)
Fixpoint findStartNode (nodes : list str) (idx currentOffset startIndex : nat)
  : option (nat * nat) :=
  match nodes with
  | [] => None
  | node :: rest =>
      let nodeLength := length node in
      if startIndex <=? currentOffset + nodeLength
      then Some (idx, startIndex - currentOffset)
      else findStartNode rest (S idx) (currentOffset + nodeLength) startIndex
  end.

(** [replaceRange.setStart(startNode, startOffset)], [setEnd(range end)],
    [deleteContents()] and [insertNode(textNode)] (lines 407-412) on the
    text nodes, with the index of the inserted node.  A start that lies
    after the end collapses the range to the end; a boundary inside a
    text node splits the node at the insertion. *)
Definition spliceRange (nodes : list str) (i so : nat) (range_end : Boundary)
    (fullText : str) : list str * nat :=
  match range_end with
  | InText j eo =>
      if (i <? j) || ((i =? j) && (so <=? eo)) then
        (firstn i nodes
           ++ [firstn so (nth i nodes []); fullText; skipn eo (nth j nodes [])]
           ++ skipn (S j) nodes,
         S i)
      else
        (firstn j nodes
           ++ [firstn eo (nth j nodes []); fullText; skipn eo (nth j nodes [])]
           ++ skipn (S j) nodes,
         S j)
  | InElement k =>
      if i <? k then
        (firstn i nodes ++ [firstn so (nth i nodes []); fullText]
           ++ skipn k nodes,
         S i)
      else
        (firstn k nodes ++ [fullText] ++ skipn k nodes, k)
  end.

(** [replaceInContentEditable] (lines 369-425). *)
Definition replaceInContentEditable (fullText _currentText : str) (now : Z)
    (w : World) : World :=
  match selection w with
  | None => w
  | Some range_end =>
      let e := element w in
      let currentContent := textBefore (textNodes e) range_end in
      let startIndex :=
        match lastIndexOf currentContent space with
        | Some lastSpaceIndex => lastSpaceIndex + 1
        | None => 0
        end in
      match findStartNode (textNodes e) 0 0 startIndex with
      | None => w
      | Some (startNode, startOffset) =>
          let (nodes', inserted) :=
            spliceRange (textNodes e) startNode startOffset range_end
              fullText in
          let e' :=
            {| contenteditable := contenteditable e; tagName := tagName e;
               value := value e; selectionStart := selectionStart e;
               textNodes := nodes' |} in
          let w := set_element e' w in
          let w := set_selection (Some (InElement (S inserted))) w in
          dispatchInput now w
      end
  end.

(** [acceptSuggestion] (lines 350-367).  [now] is the reading of
    [Date.now()] at line 354, [now'] the one of the [input] listener
    run by the event that the replacement dispatches. *)
Definition acceptSuggestion (now now' : Z) (w : World) : World :=
  match currentSuggestion w with
  | None => w
  | Some suggestion =>
      let w := set_suppressedUntil (now + 500)%Z w in
      let fullText := suggestionText suggestion in
      let currentText := getCurrentText w in
      let w :=
        if is_contenteditable (element w) then
          replaceInContentEditable fullText currentText now' w
        else if is_field (element w) then
          replaceInInput fullText currentText now' w
        else w in
      clearSuggestion w
  end.

(** *** Key events *)

Definition isSome {A} (o : option A) : bool :=
  match o with Some _ => true | None => false end.

(** [handleKeydown] (lines 128-146); the callback of the delete keys
    is counted in [timers]. *)
Definition handleKeydown (key : str) (now now' : Z) (w : World) : World :=
  if str_eqb key (lit "Tab") && isSome (currentSuggestion w) then
    acceptSuggestion now now' w
  else if str_eqb key (lit "Escape") && isSome (currentSuggestion w) then
    clearSuggestion w
  else if str_eqb key (lit "Backspace") || str_eqb key (lit "Delete") then
    set_timers (S (timers w)) w
  else w.

(** The callback scheduled by the delete keys (lines 139-144). *)
Definition deleteKeyTimeout (w : World) : World :=
  let currentText := getCurrentText w in
  if length currentText <? 2 then clearSuggestion w else w.

(** *** The event loop *)

(** What can happen to a manager: the events it listens to, the
    callbacks it has scheduled, and edits of the element by the user or
    the host page.  [Storage k] is the storage callback of the [k]-th
    pending [handleInput]. *)
Inductive Event :=
| Input (now : Z)
| Storage (k : nat) (env : Env) (responses : option (list ResponseRecord))
| Keydown (key : str) (now now' : Z)
| Timeout
| Blur
| CompositionStart
| CompositionEnd
| Edit (e : Element) (sel : option Boundary).

Definition removeNth {A} (k : nat) (l : list A) : list A :=
  firstn k l ++ skipn (S k) l.

Definition step (w : World) (ev : Event) : World :=
  match ev with
  | Input now => dispatchInput now w
  | Storage k env responses =>
      match nth_error (pending w) k with
      | Some currentText =>
          handleInput_resume env responses currentText
            (set_pending (removeNth k (pending w)) w)
      | None => w
      end
  | Keydown key now now' => handleKeydown key now now' w
  | Timeout =>
      match timers w with
      | 0 => w
      | S n => deleteKeyTimeout (set_timers n w)
      end
  | Blur => clearSuggestion w
  | CompositionStart => set_isComposing true w
  | CompositionEnd => set_isComposing false w
  | Edit e sel => set_selection sel (set_element e w)
  end.

Definition run (w : World) (evs : list Event) : World :=
  fold_left step evs w.

End Manager.

Import Manager.

(** ** Notions of the specification *)

Module Spec.

Definition no_ws (s : str) : Prop := forallb (fun c => negb (is_ws c)) s = true.

Definition all_ws (s : str) : Prop := forallb is_ws s = true.

(** [text] is empty or ends in whitespace. *)
Definition at_word_break (text : str) : Prop :=
  text = [] \/ exists p c, text = p ++ [c] /\ is_ws c = true.

(** [word] is the contiguous non-whitespace run that ends at the end of
    [text]: a whitespace-free suffix that cannot be extended to the
    left. *)
Definition run_ending_at (text word : str) : Prop :=
  exists pre, text = pre ++ word /\ no_ws word /\ at_word_break pre.

(** [word] is the last word of [text]: the run that ends at the last
    character of [text] that is not whitespace. *)
Definition last_word_of (text word : str) : Prop :=
  exists body tail,
    text = body ++ tail /\ all_ws tail /\
    (body = [] \/ exists p c, body = p ++ [c] /\ is_ws c = false) /\
    run_ending_at body word.

(** The text from the start of the element to the caret, for a
    contenteditable region with a selection and for a text field;
    [None] when there is no selection or the element is neither. *)
Definition caretText (w : World) : option str :=
  let e := element w in
  if is_contenteditable e then
    match selection w with
    | Some b => Some (textBefore (textNodes e) b)
    | None => None
    end
  else if is_field e then Some (firstn (selectionStart e) (value e))
  else None.

(** The whole text of the editable: [value] of a text field,
    [textContent] of a contenteditable region. *)
Definition editableText (w : World) : str :=
  let e := element w in
  if is_contenteditable e then concat (textNodes e) else value e.

(** The text after the caret. *)
Definition textAfterCaret (w : World) : str :=
  let e := element w in
  if is_contenteditable e then
    match selection w with
    | Some b => textAfter (textNodes e) b
    | None => []
    end
  else skipn (selectionStart e) (value e).

(** A string that the text field [e] holds as it is: it has no carriage
    return, and no line break at all unless [e] is a [textarea]. *)
Definition storable (e : Element) (s : str) : Prop :=
  ~ In carriage_return s /\
  (str_eqb (tagName e) (lit "TEXTAREA") = false -> ~ In newline s).

Definition storableb (e : Element) (s : str) : bool :=
  forallb (fun c => negb (ascii_eqb c carriage_return)) s &&
  (str_eqb (tagName e) (lit "TEXTAREA")
   || forallb (fun c => negb (ascii_eqb c newline)) s).









(** At most one overlay is rendered, and a rendered overlay is the one
    the manager holds and has created. *)
Definition overlay_inv (w : World) : Prop :=
  match body w with
  | [] => True
  | [o] => ghostElement w = Some (oid o) /\ oid o < next_id w
  | _ :: _ :: _ => False
  end.

(** [w'] differs from [w] at most in the overlay and the suggestion:
    the editable, the selection, the flags and the queues are the same. *)
Definition overlay_only (w w' : World) : Prop :=
  element w' = element w /\ selection w' = selection w /\
  isComposing w' = isComposing w /\
  suppressedUntil w' = suppressedUntil w /\
  pending w' = pending w /\ timers w' = timers w.

(** The element is a text field and not a contenteditable region. *)
Definition native (e : Element) : Prop :=
  is_contenteditable e = false /\ is_field e = true.

(** On a native field the manager holds no overlay, none is rendered,
    and none has been created. *)
Definition native_inv (w : World) : Prop :=
  native (element w) /\ ghostElement w = None /\ body w = [] /\
  next_id w = 0.

(** A sequence of events in which every edit leaves a native field. *)
Fixpoint native_events (evs : list Event) : Prop :=
  match evs with
  | [] => True
  | Edit e _ :: evs' => native e /\ native_events evs'
  | _ :: evs' => native_events evs'
  end.

End Spec.

Import Spec.

(** ** Concrete pages used in the examples *)

Module Scenario.

Definition textarea (v : str) (cursorPos : nat) : Element :=
  {| contenteditable := None; tagName := lit "TEXTAREA"; value := v;
     selectionStart := cursorPos; textNodes := [] |}.

(** A single-line [input] of type text. *)
Definition text_input (v : str) (cursorPos : nat) : Element :=
  {| contenteditable := None; tagName := lit "INPUT"; value := v;
     selectionStart := cursorPos; textNodes := [] |}.

Definition editable (nodes : list str) : Element :=
  {| contenteditable := Some (lit "true"); tagName := lit "DIV";
     value := []; selectionStart := 0; textNodes := nodes |}.

Definition thanks : ResponseRecord :=
  {| id := lit "1"; title := Some (lit "Thanks");
     content := Some (lit "Thank you for connecting!"); tags := [] |}.

Definition hi_long : ResponseRecord :=
  {| id := lit "2"; title := None;
     content := Some (lit "Hi there, thanks for reaching out");
     tags := [] |}.


Definition hi_short : ResponseRecord :=
  {| id := lit "3"; title := None; content := Some (lit "Hi!"); tags := [] |}.

(** A template of two lines, and the same with the line break written
    CR LF. *)
Definition sign_off : ResponseRecord :=
  {| id := lit "4"; title := Some (lit "Sign-off");
     content := Some (lit "Thanks," ++ [newline] ++ lit "Bob"); tags := [] |}.

Definition sign_off_crlf : ResponseRecord :=
  {| id := lit "5"; title := Some (lit "Sign-off");
     content :=
       Some (lit "Thanks," ++ [carriage_return; newline] ++ lit "Bob");
     tags := [] |}.

Definition rect (l t r : Q) : Rect :=
  {| rleft := l; rtop := t; rright := r; rwidth := (r - l)%Q;
     rheight := 20%Q |}.

(** A page on [x.com]: the element spans 100..500 px, the caret is at
    [caret] px, and an overlay that is rendered is [wide] px wide. *)
Definition x_com (caret wide : Q) : Env :=
  {| hostname := lit "x.com";
     rangeRect := rect caret 100 caret;
     containerRect := rect 100 90 500;
     fontSize := Some 15%Q;
     layoutWidth := fun _ => wide |}.

(** A caret 20 px before the right edge and a remainder 200 px wide. *)
Definition x_com_wide : Env := x_com 469 200.

Definition linkedin_com : Env :=
  {| hostname := lit "www.linkedin.com";
     rangeRect := rect 150 100 150;
     containerRect := rect 100 90 500;
     fontSize := Some 14%Q;
     layoutWidth := fun _ => 200%Q |}.

(** A text field in which "Thank" has been typed and the suggestion
    is active. *)
Definition suggested_in_textarea : World :=
  handleInput 10 linkedin_com (Some [thanks])
    (create (textarea (lit "Thank") 5) None).

(** The same in a contenteditable region, on a given page. *)
Definition suggested_in_region (env : Env) : World :=
  handleInput 10 env (Some [thanks])
    (create (editable [lit "Thank"]) (Some (InText 0 5))).

End Scenario.

Import Scenario.

(** ** What a rendered overlay shows *)

Module Shown.

(** The overlay [o] shows the record [r]: on LinkedIn its text is the
    full text of the record; on Twitter it has at most 70 characters and
    is an end piece of the full text, or a piece of it followed by three
    dots. *)
Definition shows (r : ResponseRecord) (o : Overlay) : Prop :=
  match oplatform o with
  | linkedin => otext o = suggestionText r
  | twitter =>
      length (otext o) <= 70 /\
      ((exists pre, suggestionText r = pre ++ otext o) \/
       (exists pre piece post,
           suggestionText r = pre ++ piece ++ post /\
           otext o = piece ++ lit "..."))
  end.

(** The width limit an overlay carries when no clamping has happened:
    the 300 px of the Twitter style, the relative limit on LinkedIn. *)
Definition unclamped (o : Overlay) : Prop :=
  match oplatform o with
  | linkedin => omaxWidth o = None
  | twitter => omaxWidth o = Some 300%Q
  end.

(** Every rendered overlay belongs to the active suggestion. *)
Definition ghost_inv (w : World) : Prop :=
  forall o, In o (body w) ->
    exists r, currentSuggestion w = Some r /\ shows r o /\ unclamped o.

(** [env] with another layout width. *)
Definition with_layoutWidth (f : Overlay -> Q) (env : Env) : Env :=
  {| hostname := hostname env; rangeRect := rangeRect env;
     containerRect := containerRect env; fontSize := fontSize env;
     layoutWidth := f |}.

End Shown.

(** ** The scoring matcher

    Source: [fetchLocalSuggestions] (content.ts, lines 452-471), the
    matcher that is not on the path of [handleInput]. *)

Module Scoring.

(** A stored response with its usage counter [r.usage_count], a number
    or missing. *)
Record StoredResponse := {
  response : ResponseRecord;
  usage_count : option Z
}.

(** [r.title && r.title.toLowerCase().startsWith(q)]: an empty title
    is falsy. *)
Definition titleStartsWith (q : str) (r : StoredResponse) : bool :=
  match title (response r) with
  | Some (c :: t) => startsWith (toLowerCase (c :: t)) q
  | _ => false
  end.

(** [r.content && r.content.toLowerCase().includes(q)] *)
Definition contentIncludes (q : str) (r : StoredResponse) : bool :=
  match content (response r) with
  | Some (c :: t) => includes (toLowerCase (c :: t)) q
  | _ => false
  end.

(** The score of lines 460-463, as the exact integer sum.  The code
    adds double-precision numbers; the two sums are the same as long
    as the usage count is at most [2^53 - 110] in absolute value. *)
Definition score (q : str) (r : StoredResponse) : Z :=
  ((if titleStartsWith q r then 100 else 0)
   + (if contentIncludes q r then 10 else 0)
   + (match usage_count r with Some n => n | None => 0 end))%Z.

(** A usage count with which every score of the record is an integer
    of at most [2^53] in absolute value, which the additions of the
    code compute without rounding. *)
Definition exact_count (r : StoredResponse) : Prop :=
  match usage_count r with
  | Some n => (Z.abs n <= 2 ^ 53 - 110)%Z
  | None => True
  end.

(** [sort((a, b) => b.score - a.score)]: the sort of an array is
    stable, so its result is that of inserting each entry, from the
    last to the first, before the first entry whose score is not
    greater. *)
Fixpoint insertByScore {A} (m : A * Z) (l : list (A * Z)) : list (A * Z) :=
  match l with
  | [] => [m]
  | x :: l' =>
      if (snd x <=? snd m)%Z then m :: x :: l'
      else x :: insertByScore m l'
  end.

Fixpoint sortByScore {A} (l : list (A * Z)) : list (A * Z) :=
  match l with
  | [] => []
  | m :: l' => insertByScore m (sortByScore l')
  end.

(** [fetchLocalSuggestions] (lines 452-471); [storage] is
    [result.responses]. *)
Definition fetchLocalSuggestions (storage : option (list StoredResponse))
    (prefix : str) : list StoredResponse :=
  let list := match storage with Some l => l | None => [] end in
  let q := toLowerCase prefix in
  let matches :=
    map fst
      (sortByScore
         (filter (fun m => (0 <? snd m)%Z)
            (map (fun r => (r, score q r)) list))) in
  matches.

End Scoring.

(** ** Unicode text formatting

    Source: browser-extension/src/utils/textFormatter.ts, used by
    [formatSelectedText] and [formatEntireContent] of the content script.
    The functions walk a string with [for (const char of text)], that is
    by code points; a string is modelled by the list of the code points
    this iteration yields.  Every entry of the mapping tables is a string
    of one code point. *)

Module Formatter.

Local Open Scope N_scope.

Definition ustr := list N.

(** The code points of a string literal of the source (ASCII). *)
Definition codepoints (s : string) : ustr :=
  map N_of_ascii (list_ascii_of_string s).

(** [Array.from({ length: n }, (_, i) => f(i))] *)
Definition arrayFrom {A} (n : nat) (f : nat -> A) : list A :=
  map f (seq 0 n).

(** [String.fromCodePoint(base + i)] *)
Definition fromCodePoint (base : N) (i : nat) : N := base + N.of_nat i.

Record Mapping := {
  upper : list N;
  lower : list N;
  numbers : list N
}.

(** The italic small h is U+210E. *)
Definition planck_h : N := 0x210e%N.

(** [UNICODE_MAPS] (lines 5-33). *)
Definition bold : Mapping :=
  {| upper := arrayFrom 26%nat (fromCodePoint 0x1d400);
     lower := arrayFrom 26%nat (fromCodePoint 0x1d41a);
     numbers := arrayFrom 10%nat (fromCodePoint 0x1d7ce) |}.

Definition italic : Mapping :=
  {| upper := arrayFrom 26%nat (fromCodePoint 0x1d434);
     lower :=
       arrayFrom 26%nat
         (fun i => if (i =? 7)%nat then planck_h else fromCodePoint 0x1d44e i);
     numbers := arrayFrom 10%nat (fromCodePoint 48) |}.
(* [String(i)] is the decimal digit, U+0030 + i. *)

Definition boldItalic : Mapping :=
  {| upper := arrayFrom 26%nat (fromCodePoint 0x1d468);
     lower := arrayFrom 26%nat (fromCodePoint 0x1d482);
     numbers := arrayFrom 10%nat (fromCodePoint 0x1d7ce) |}.

(** [REGULAR] (lines 36-40). *)
Definition REGULAR : Mapping :=
  {| upper := codepoints "ABCDEFGHIJKLMNOPQRSTUVWXYZ";
     lower := codepoints "abcdefghijklmnopqrstuvwxyz";
     numbers := codepoints "0123456789" |}.

(** [s.indexOf(char)] for a needle of one code point; [None] is -1. *)
Fixpoint indexOf (s : ustr) (char : N) : option nat :=
  match s with
  | [] => None
  | c :: s' =>
      if c =? char then Some 0%nat
      else match indexOf s' char with
           | Some i => Some (S i)
           | None => None
           end
  end.

(** One round of the loop of [transformText] (lines 109-133). *)
Definition transformChar (mapping : Mapping) (char : N) : N :=
  match indexOf (upper REGULAR) char with
  | Some upperIndex => nth upperIndex (upper mapping) char
  | None =>
      match indexOf (lower REGULAR) char with
      | Some lowerIndex => nth lowerIndex (lower mapping) char
      | None =>
          match indexOf (numbers REGULAR) char with
          | Some numberIndex => nth numberIndex (numbers mapping) char
          | None => char
          end
      end
  end.

(** [transformText] (lines 106-136). *)
Definition transformText (text : ustr) (mapping : Mapping) : ustr :=
  map (transformChar mapping) text.

Definition toBold (text : ustr) : ustr := transformText text bold.

Definition toItalic (text : ustr) : ustr := transformText text italic.

Definition toBoldItalic (text : ustr) : ustr := transformText text boldItalic.

(** [code >= lo && code <= hi] *)
Definition within (lo hi code : N) : bool :=
  ((lo <=? code) && (code <=? hi))%N.

(** The test of [hasFormatting] and [toRegular]: a code point that is
    not 0 and lies in U+1D400..U+1D7FF. *)
Definition isMathAlnum (code : N) : bool :=
  negb (code =? 0)%N && within 0x1d400 0x1d7ff code.

(** [hasFormatting] (lines 66-75). *)
Definition hasFormatting (text : ustr) : bool := existsb isMathAlnum text.

(** [REGULAR.upper[code - base]] *)
Definition regularAt (table : ustr) (code base : N) : N :=
  nth (N.to_nat (code - base)) table code.

(** [unicodeToRegular] (lines 141-181). *)
Definition unicodeToRegular (char : N) : N :=
  let code := char in
  if (code =? 0)%N then char
  else if within 0x1d400 0x1d419 code then regularAt (upper REGULAR) code 0x1d400
  else if within 0x1d41a 0x1d433 code then regularAt (lower REGULAR) code 0x1d41a
  else if within 0x1d7ce 0x1d7d7 code then regularAt (numbers REGULAR) code 0x1d7ce
  else if within 0x1d434 0x1d44d code then regularAt (upper REGULAR) code 0x1d434
  else if within 0x1d44e 0x1d467 code then regularAt (lower REGULAR) code 0x1d44e
  else if (char =? planck_h)%N then 104 (* 'h' *)
  else if within 0x1d468 0x1d481 code then regularAt (upper REGULAR) code 0x1d468
  else if within 0x1d482 0x1d49b code then regularAt (lower REGULAR) code 0x1d482
  else char.

(** One round of the loop of [toRegular] (lines 83-99); the result of
    [unicodeToRegular] is never empty, so [converted || char] is
    [converted]. *)
Definition regularChar (char : N) : N :=
  let code := char in
  if (code =? 0)%N then char
  else if within 0x1d400 0x1d7ff code then unicodeToRegular char
  else char.

(** [toRegular] (lines 80-102). *)
Definition toRegular (text : ustr) : ustr := map regularChar text.

Inductive FormattingType := Bold | Italic | BoldItalic | Regular.

(** The loop of [getFormattingType] (lines 189-205). *)
Fixpoint firstFormatting (text : ustr) : FormattingType :=
  match text with
  | [] => Regular
  | char :: rest =>
      let code := char in
      if (code =? 0)%N then firstFormatting rest
      else if within 0x1d400 0x1d433 code || within 0x1d7ce 0x1d7d7 code then Bold
      else if within 0x1d434 0x1d467 code || (char =? planck_h)%N then Italic
      else if within 0x1d468 0x1d49b code then BoldItalic
      else firstFormatting rest
  end.

(** [getFormattingType] (lines 186-208). *)
Definition getFormattingType (text : ustr) : FormattingType :=
  if negb (hasFormatting text) then Regular else firstFormatting text.

(** Letters and digits of ASCII, the characters the mappings restyle. *)
Definition isUpper (c : N) : bool := within 65 90 c.
Definition isLower (c : N) : bool := within 97 122 c.
Definition isDigit (c : N) : bool := within 48 57 c.
Definition isAlnum (c : N) : bool := isUpper c || isLower c || isDigit c.

(** A letter that the italic mapping sends into U+1D400..U+1D7FF: any
    letter but h. *)
Definition isItalicLetter (c : N) : bool :=
  (isUpper c || isLower c) && negb (c =? 104).

(** A code point of one of the three styles that [toRegular] undoes. *)
Definition isStyled (c : N) : bool :=
  within 0x1d400 0x1d49b c || within 0x1d7ce 0x1d7d7 c.

End Formatter.

Example split_two_spaces :
split_ws (lit "a  b") = [lit "a"; lit "b"].
Proof. reflexivity. Qed.

Example split_leading : split_ws (lit " a") = [[]; lit "a"].
Proof. reflexivity. Qed.

Example split_empty : split_ws [] = [[]].
Proof. reflexivity. Qed.

Example trim_both : trim (lit "  Thank yo ") = lit "Thank yo".
Proof. reflexivity. Qed.

Example lower_ex : toLowerCase (lit "Thank YOU") = lit "thank you".
Proof. reflexivity. Qed.

Example lastIndexOf_ex : lastIndexOf (lit "a b c") space = Some 3.
Proof. reflexivity. Qed.

(** ** Strings: splitting and trimming *)

Section Strings.

Lemma split_ws_from_nonempty (b : bool) (s : str) : split_ws_from b s <> [].
Proof.
  revert b; induction s as [|c s IH]; intros b; simpl.
  - discriminate.
  - destruct (is_ws c).
    + destruct b; [apply IH | discriminate].
    + destruct (split_ws_from false s); discriminate.
Qed.

Lemma split_ws_from_no_ws (b : bool) (s : str) :
  no_ws s -> split_ws_from b s = [s].
Proof.
  unfold no_ws. revert b; induction s as [|c s IH]; intros b H; simpl in *.
  - reflexivity.
  - apply andb_true_iff in H as [Hc Hs].
    apply negb_true_iff in Hc. rewrite Hc.
    rewrite (IH false Hs). reflexivity.
Qed.

Lemma split_ws_singleton (s w0 : str) :
  split_ws_from false s = [w0] -> s = w0 /\ no_ws w0.
Proof.
  unfold no_ws. revert w0; induction s as [|c s IH]; intros w0 H; simpl in *.
  - inversion H; subst. split; reflexivity.
  - destruct (is_ws c) eqn:Hc.
    + inversion H as [[H1 H2]].
      exfalso. exact (split_ws_from_nonempty _ _ H2).
    + destruct (split_ws_from false s) as [|w1 ws1] eqn:E.
      * exfalso. exact (split_ws_from_nonempty _ _ E).
      * inversion H; subst.
        destruct (IH w1 eq_refl) as [-> Hw].
        split; [reflexivity|]. simpl. rewrite Hc, Hw. reflexivity.
Qed.

Lemma at_word_break_cons_ws (c : ascii) (pre : str) :
  is_ws c = true -> at_word_break pre -> at_word_break (c :: pre).
Proof.
  intros Hc [->|(p & x & -> & Hx)]; right.
  - exists [], c. split; [reflexivity | assumption].
  - exists (c :: p), x. split; [reflexivity | assumption].
Qed.

Lemma at_word_break_cons (c : ascii) (pre : str) :
  pre <> [] -> at_word_break pre -> at_word_break (c :: pre).
Proof.
  intros Hne [->|(p & x & -> & Hx)]; [congruence|].
  right. exists (c :: p), x. split; [reflexivity | assumption].
Qed.

(** The last piece of a split is the run at the end of the text. *)
Lemma last_split_run (b : bool) (s : str) :
  run_ending_at s (last (split_ws_from b s) []).
Proof.
  revert b; induction s as [|c s IH]; intros b.
  - exists []. repeat split. now left.
  - simpl. destruct (is_ws c) eqn:Hc.
    + assert (E : last (if b then split_ws_from true s
                        else [] :: split_ws_from true s) []
                  = last (split_ws_from true s) []).
      { destruct b; [reflexivity|].
        destruct (split_ws_from true s) eqn:E0; [|reflexivity].
        exfalso. exact (split_ws_from_nonempty _ _ E0). }
      rewrite E. destruct (IH true) as (pre & Hs & Hw & Hpre).
      exists (c :: pre). split; [cbn [app]; f_equal; exact Hs|].
      split; [assumption|]. now apply at_word_break_cons_ws.
    + destruct (split_ws_from false s) as [|w0 ws] eqn:E.
      * exfalso. exact (split_ws_from_nonempty _ _ E).
      * destruct ws as [|w1 ws].
        -- destruct (split_ws_singleton _ _ E) as [-> Hw].
           exists []. split; [reflexivity|]. split; [|now left].
           unfold no_ws in *. simpl. rewrite Hc, Hw. reflexivity.
        -- specialize (IH false). rewrite E in IH.
           change (last ((c :: w0) :: w1 :: ws) [])
             with (last (w1 :: ws) []).
           change (last (w0 :: w1 :: ws) []) with (last (w1 :: ws) []) in IH.
           destruct IH as (pre & Hs & Hw & Hpre).
           exists (c :: pre). split; [cbn [app]; f_equal; exact Hs|].
           split; [assumption|].
           apply at_word_break_cons; [|assumption].
           intros ->. cbn [app] in Hs. rewrite <- Hs in Hw.
           rewrite (split_ws_from_no_ws false _ Hw) in E. discriminate.
Qed.

Lemma all_ws_app (a b : str) : all_ws a -> all_ws b -> all_ws (a ++ b).
Proof.
  unfold all_ws. intros Ha Hb. rewrite forallb_app, Ha, Hb. reflexivity.
Qed.

Lemma all_ws_rev (a : str) : all_ws a -> all_ws (rev a).
Proof.
  unfold all_ws. rewrite !forallb_forall. intros H x Hx.
  apply H. now apply in_rev.
Qed.

Lemma all_ws_word_break (a : str) : all_ws a -> at_word_break a.
Proof.
  unfold all_ws. induction a as [|x a _] using rev_ind; intros H.
  - now left.
  - right. exists a, x. split; [reflexivity|].
    rewrite forallb_app in H. apply andb_true_iff in H as [_ H].
    simpl in H. now rewrite andb_true_r in H.
Qed.

Lemma trimStart_spec (s : str) :
  exists lead,
    s = lead ++ trimStart s /\ all_ws lead /\
    (trimStart s = [] \/
     exists c r, trimStart s = c :: r /\ is_ws c = false).
Proof.
  induction s as [|c s IH]; simpl.
  - exists []. repeat split. now left.
  - destruct (is_ws c) eqn:Hc.
    + destruct IH as (lead & Hs & Hl & Ht).
      exists (c :: lead). split; [simpl; congruence|]. split; [|exact Ht].
      unfold all_ws in *. simpl. now rewrite Hc, Hl.
    + exists []. repeat split. right. now exists c, s.
Qed.

Lemma trimEnd_spec (s : str) :
  exists tail,
    s = trimEnd s ++ tail /\ all_ws tail /\
    (trimEnd s = [] \/
     exists p c, trimEnd s = p ++ [c] /\ is_ws c = false).
Proof.
  unfold trimEnd.
  destruct (trimStart_spec (rev s)) as (lead & Hs & Hl & Ht).
  exists (rev lead). split; [|split].
  - rewrite <- rev_app_distr, <- Hs. symmetry. apply rev_involutive.
  - now apply all_ws_rev.
  - destruct Ht as [->|(c & r & -> & Hc)]; [now left|].
    right. exists (rev r), c. split; [reflexivity | assumption].
Qed.

Lemma trimEnd_head (s : str) (c : ascii) (r : str) :
  s = c :: r -> is_ws c = false -> exists r', trimEnd s = c :: r'.
Proof.
  intros -> Hc. destruct (trimEnd_spec (c :: r)) as (tail & Hs & Hl & _).
  destruct (trimEnd (c :: r)) as [|x t] eqn:E.
  - simpl in Hs. subst tail. unfold all_ws in Hl. simpl in Hl.
    rewrite Hc in Hl. discriminate.
  - simpl in Hs. inversion Hs; subst. now exists t.
Qed.

(** [lastWord] yields the last word of its argument. *)
Lemma lastWord_spec (t : str) : last_word_of t (lastWord t).
Proof.
  unfold lastWord, last_or_empty, split_ws, trim.
  destruct (trimStart_spec t) as (lead & Ht & Hlead & _).
  destruct (trimEnd_spec (trimStart t)) as (tail & Ht1 & Htail & Hend).
  pose proof (last_split_run false (trimEnd (trimStart t))) as Hrun.
  set (t2 := trimEnd (trimStart t)) in *.
  set (w := last (split_ws_from false t2) []) in *.
  destruct Hend as [E|(p & c & E & Hc)].
  - exists [], (lead ++ tail). split; [|split; [|split]].
    + rewrite Ht at 1. rewrite Ht1, E. reflexivity.
    + now apply all_ws_app.
    + now left.
    + subst w. rewrite E. simpl. exists []. repeat split. now left.
  - exists (lead ++ t2), tail. split; [|split; [|split]].
    + rewrite Ht at 1. rewrite Ht1 at 1. now rewrite app_assoc.
    + assumption.
    + right. exists (lead ++ p), c. rewrite E, app_assoc. now split.
    + destruct Hrun as (pre & Hp & Hw & Hb).
      exists (lead ++ pre). split; [rewrite Hp; now rewrite app_assoc|].
      split; [assumption|].
      destruct Hb as [->|(q & x & -> & Hx)].
      * rewrite app_nil_r. now apply all_ws_word_break.
      * right. exists (lead ++ q), x. rewrite app_assoc. now split.
Qed.

(** The last word is one word: it holds no whitespace. *)
Lemma lastWord_no_ws (t : str) : no_ws (lastWord t).
Proof.
  destruct (lastWord_spec t) as (b & tl & _ & _ & _ & (pre & _ & H & _)).
  exact H.
Qed.

End Strings.

(** ** The current word (claim C8) *)

Section CurrentWord.

Lemma substring_0 (v : str) (n : nat) : substring v 0 n = firstn n v.
Proof. unfold substring. now rewrite Nat.sub_0_r. Qed.

Lemma last_word_of_nil (word : str) : last_word_of [] word -> word = [].
Proof.
  intros (b & tl & H & _ & _ & (pre & Hb & _ & _)).
  symmetry in H. apply app_eq_nil in H as [-> _].
  symmetry in Hb. now apply app_eq_nil in Hb as [_ ->].
Qed.

(** Where the text does not end in whitespace, the last word is the run
    that ends at the end of the text. *)
Lemma last_word_of_run (t word : str) :
  last_word_of t word -> at_word_break t \/ run_ending_at t word.
Proof.
  intros (b & tl & Ht & Htl & _ & Hrun).
  induction tl as [|x tl _] using rev_ind.
  - right. rewrite app_nil_r in Ht. now subst t.
  - left. right. exists (b ++ tl), x. split; [now rewrite <- app_assoc|].
    unfold all_ws in Htl. rewrite forallb_app in Htl.
    apply andb_true_iff in Htl as [_ Hx]. simpl in Hx.
    now rewrite andb_true_r in Hx.
Qed.

(** C8, as the code has it: on a recognised element with a selection
    the extraction returns the last word of the text before the caret,
    that is the non-whitespace run ending at the last character before
    the caret that is not whitespace; unless the text before the caret
    is empty or ends in whitespace, this is the run ending at the caret.
    It returns the empty string when there is no selection, when the
    element is neither a text field nor a contenteditable region, and
    when the caret is at the start. *)
Theorem C8_current_text_is_last_word (w : World) :
  match caretText w with
  | Some t =>
      last_word_of t (getCurrentText w) /\
      (at_word_break t \/ run_ending_at t (getCurrentText w)) /\
      match t with [] => getCurrentText w = [] | _ :: _ => True end
  | None => getCurrentText w = []
  end.
Proof.
  assert (G : forall t, last_word_of t (lastWord t) /\
               (at_word_break t \/ run_ending_at t (lastWord t)) /\
               match t with [] => lastWord t = [] | _ :: _ => True end).
  { intros t. pose proof (lastWord_spec t) as H.
    split; [exact H|]. split; [now apply last_word_of_run|]. now destruct t. }
  unfold caretText, getCurrentText.
  destruct (is_contenteditable (element w)).
  - destruct (selection w); [apply G | reflexivity].
  - destruct (is_field (element w)); [|reflexivity].
    rewrite substring_0. apply G.
Qed.

(** C8 as written fails after a trailing space: the run ending at the
    caret is empty, the extraction returns the word before the space. *)
Lemma C8_trailing_space_counterexample :
  let w := create (textarea (lit "hello ") 6) None in
  caretText w = Some (lit "hello ") /\
  getCurrentText w = lit "hello" /\
  ~ run_ending_at (lit "hello ") (getCurrentText w).
Proof.
  split; [reflexivity|]. split; [reflexivity|].
  change (getCurrentText (create (textarea (lit "hello ") 6) None))
    with (lit "hello").
  intros (pre & H & _ & _).
  apply (f_equal (@rev ascii)) in H. rewrite rev_app_distr in H.
  discriminate H.
Qed.

End CurrentWord.

(** ** The overlay invariant (claim C9) *)

Section Overlay.

Lemma clearGhostElement_body (w : World) :
  overlay_inv w -> body (clearGhostElement w) = [].
Proof.
  unfold overlay_inv, clearGhostElement. intros H.
  destruct (body w) as [|o [|o' b]] eqn:E.
  - destruct (ghostElement w); cbn [body set_ghostElement set_body];
      try rewrite E; reflexivity.
  - destruct H as [Hg _]. rewrite Hg.
    cbn [body set_ghostElement set_body]. try rewrite E. simpl.
    now rewrite Nat.eqb_refl.
  - contradiction.
Qed.

Lemma clearGhostElement_ghost (w : World) :
  ghostElement (clearGhostElement w) = None.
Proof.
  unfold clearGhostElement. destruct (ghostElement w) eqn:E; [reflexivity|].
  exact E.
Qed.

Lemma clearGhostElement_frame (w : World) :
  element (clearGhostElement w) = element w /\
  selection (clearGhostElement w) = selection w /\
  next_id (clearGhostElement w) = next_id w /\
  currentSuggestion (clearGhostElement w) = currentSuggestion w /\
  isComposing (clearGhostElement w) = isComposing w /\
  suppressedUntil (clearGhostElement w) = suppressedUntil w /\
  pending (clearGhostElement w) = pending w /\
  timers (clearGhostElement w) = timers w.
Proof.
  unfold clearGhostElement. destruct (ghostElement w); repeat split.
Qed.

Lemma overlay_inv_nil (w : World) : body w = [] -> overlay_inv w.
Proof. unfold overlay_inv. now intros ->. Qed.

Lemma inv_clearGhostElement (w : World) :
  overlay_inv w -> overlay_inv (clearGhostElement w).
Proof. intros H. apply overlay_inv_nil. now apply clearGhostElement_body. Qed.

Lemma inv_clearSuggestion (w : World) :
  overlay_inv w -> overlay_inv (clearSuggestion w).
Proof. intros H. unfold clearSuggestion. apply inv_clearGhostElement. exact H. Qed.

Lemma clearSuggestion_body (w : World) :
  overlay_inv w -> body (clearSuggestion w) = [].
Proof. intros H. unfold clearSuggestion. apply clearGhostElement_body. exact H. Qed.

Lemma clearSuggestion_cleared (w : World) :
  currentSuggestion (clearSuggestion w) = None /\
  ghostElement (clearSuggestion w) = None.
Proof.
  unfold clearSuggestion. split.
  - now rewrite (proj1 (proj2 (proj2 (proj2 (clearGhostElement_frame _))))).
  - apply clearGhostElement_ghost.
Qed.

Lemma clearSuggestion_frame (w : World) :
  element (clearSuggestion w) = element w /\
  selection (clearSuggestion w) = selection w /\
  next_id (clearSuggestion w) = next_id w /\
  isComposing (clearSuggestion w) = isComposing w /\
  suppressedUntil (clearSuggestion w) = suppressedUntil w /\
  pending (clearSuggestion w) = pending w /\
  timers (clearSuggestion w) = timers w.
Proof.
  unfold clearSuggestion.
  destruct (clearGhostElement_frame (set_currentSuggestion None w))
    as (H1 & H2 & H3 & _ & H5 & H6 & H7 & H8).
  now rewrite H1, H2, H3, H5, H6, H7, H8.
Qed.

Lemma overlay_only_refl (w : World) : overlay_only w w.
Proof. repeat split. Qed.

Lemma overlay_only_trans (a b c : World) :
  overlay_only a b -> overlay_only b c -> overlay_only a c.
Proof.
  unfold overlay_only.
  intros (A1 & A2 & A3 & A4 & A5 & A6) (B1 & B2 & B3 & B4 & B5 & B6).
  repeat split; congruence.
Qed.

Lemma clearGhostElement_only (w : World) : overlay_only w (clearGhostElement w).
Proof.
  destruct (clearGhostElement_frame w) as (H1 & H2 & _ & _ & H5 & H6 & H7 & H8).
  repeat split; assumption.
Qed.

Lemma clearSuggestion_only (w : World) : overlay_only w (clearSuggestion w).
Proof.
  destruct (clearSuggestion_frame w) as (H1 & H2 & _ & H5 & H6 & H7 & H8).
  repeat split; assumption.
Qed.

Lemma positionTwitterOverlay_only (env : Env) (o : Overlay) (w : World) :
  overlay_only w (positionTwitterOverlay env o w) /\
  ghostElement (positionTwitterOverlay env o w) = ghostElement w /\
  next_id (positionTwitterOverlay env o w) = next_id w /\
  currentSuggestion (positionTwitterOverlay env o w) = currentSuggestion w.
Proof.
  unfold positionTwitterOverlay.
  destruct (selection w); [|repeat split].
  repeat match goal with |- context [if ?c then _ else _] => destruct c end;
    repeat split.
Qed.

(** From an empty body, Strategy B leaves the body empty or renders
    exactly the node it was given. *)
Lemma positionTwitterOverlay_body (env : Env) (o : Overlay) (w : World) :
  body w = [] ->
  body (positionTwitterOverlay env o w) = [] \/
  exists o', body (positionTwitterOverlay env o w) = [o'] /\
             oid o' = oid o /\ otext o' = otext o.
Proof.
  intros E. unfold positionTwitterOverlay.
  destruct (selection w); [|now left].
  repeat match goal with |- context [if ?c then _ else _] => destruct c end;
    cbn [body set_body]; rewrite E; simpl;
    solve [now left | right; eexists; repeat split].
Qed.

Lemma positionLinkedInOverlay_body (env : Env) (o : Overlay) (w : World) :
  body w = [] ->
  exists o', body (positionLinkedInOverlay env o w) = [o'] /\
             oid o' = oid o /\ otext o' = otext o.
Proof.
  intros E. unfold positionLinkedInOverlay. cbn [body set_body].
  rewrite E. simpl. eexists. repeat split.
Qed.

(** [createGhostElement] keeps the invariant; what is rendered
    afterwards is the node created by this call. *)
Lemma createGhostElement_spec (env : Env) (text cur full : str)
    (pf : Platform) (w : World) :
  overlay_inv w ->
  let w' := createGhostElement env text cur full pf w in
  overlay_inv w' /\
  (forall o, In o (body w') -> oid o = next_id w) /\
  overlay_only w w' /\
  currentSuggestion w' = currentSuggestion w /\
  next_id w <= next_id w'.
Proof.
  intros H. unfold createGhostElement.
  pose proof (clearGhostElement_body w H) as Hb.
  destruct (clearGhostElement_frame w) as (F1 & F2 & F3 & F4 & F5 & F6 & F7 & F8).
  set (w1 := clearGhostElement w) in *.
  assert (Hfr : forall w2, overlay_only w1 w2 -> overlay_only w w2).
  { intros w2 (A1 & A2 & A3 & A4 & A5 & A6). repeat split; congruence. }
  destruct (is_contenteditable (element w1)); cbn zeta.
  - set (w2 := set_next_id (S (next_id w1)) w1).
    assert (Hb2 : body w2 = []) by exact Hb.
    destruct pf.
    + destruct (positionLinkedInOverlay_body env
                  {| oid := next_id w1; otext := full; oplatform := linkedin;
                     oleft := None; otop := None; owidth := None;
                     omaxWidth := None |} w2 Hb2) as (o' & E & Hid & _).
      cbn [oid] in Hid. unfold overlay_inv.
      cbn [body set_ghostElement ghostElement next_id currentSuggestion].
      rewrite E. unfold positionLinkedInOverlay.
      cbn [next_id set_body set_next_id currentSuggestion w2].
      split; [split; [now rewrite Hid | rewrite Hid; lia]|].
      split; [intros x [<-|[]]; congruence|].
      split; [apply Hfr; repeat split|].
      split; [exact F4 | lia].
    + destruct (positionTwitterOverlay_only env
                  {| oid := next_id w1; otext := text; oplatform := twitter;
                     oleft := None; otop := None; owidth := None;
                     omaxWidth := Some 300%Q |} w2) as (T1 & _ & T3 & T4).
      destruct (positionTwitterOverlay_body env
                  {| oid := next_id w1; otext := text; oplatform := twitter;
                     oleft := None; otop := None; owidth := None;
                     omaxWidth := Some 300%Q |} w2 Hb2)
        as [E|(o' & E & Hid & _)];
        unfold overlay_inv;
        cbn [body set_ghostElement ghostElement next_id currentSuggestion];
        rewrite E, T3, T4; cbn [next_id set_next_id currentSuggestion w2].
      * split; [exact I|]. split; [intros x []|].
        split; [apply Hfr; exact T1|]. split; [exact F4 | lia].
      * cbn [oid] in Hid.
        split; [split; [now rewrite Hid | rewrite Hid; lia]|].
        split; [intros x [<-|[]]; congruence|].
        split; [apply Hfr; exact T1|]. split; [exact F4 | lia].
  - split; [now apply overlay_inv_nil|].
    split; [rewrite Hb; intros o []|].
    split; [apply Hfr; apply overlay_only_refl|].
    split; [exact F4 | lia].
Qed.

End Overlay.

(** ** Events keep the overlay invariant *)

Section OverlayEvents.

Lemma showSuggestion_spec (env : Env) (r : ResponseRecord) (cur : str)
    (w : World) :
  overlay_inv w ->
  let w' := showSuggestion env r cur w in
  overlay_inv w' /\
  (forall o, In o (body w') -> oid o = next_id w) /\
  overlay_only w w' /\
  currentSuggestion w' = Some r /\
  next_id w <= next_id w'.
Proof.
  intros H. unfold showSuggestion.
  assert (H' : overlay_inv (set_currentSuggestion (Some r) w)) by exact H.
  destruct (includes (hostname env) (lit "twitter")
            || includes (hostname env) (lit "x.com"));
    cbn zeta;
    match goal with
    | |- context [createGhostElement ?e ?t ?c ?f ?p ?x] =>
        exact (createGhostElement_spec e t c f p x H')
    end.
Qed.

Lemma inv_handleInput_resume (env : Env)
    (storage : option (list ResponseRecord)) (cur : str) (w : World) :
  overlay_inv w ->
  overlay_inv (handleInput_resume env storage cur w) /\
  overlay_only w (handleInput_resume env storage cur w) /\
  next_id w <= next_id (handleInput_resume env storage cur w).
Proof.
  intros H. unfold handleInput_resume.
  assert (C : overlay_inv (clearSuggestion w) /\
              overlay_only w (clearSuggestion w) /\
              next_id w <= next_id (clearSuggestion w)).
  { split; [now apply inv_clearSuggestion|].
    split; [apply clearSuggestion_only|].
    destruct (clearSuggestion_frame w) as (_ & _ & -> & _). lia. }
  destruct (fetchSuggestions storage cur); [exact C|].
  destruct (filter _ _) as [|r0 rest]; [exact C|].
  destruct (showSuggestion_spec env r0 cur w H) as (A & _ & B & _ & D).
  split; [exact A | split; [exact B | exact D]].
Qed.

(** The prologue of [handleInput] clears the suggestion or changes
    nothing. *)
Lemma handleInput_start_cases (now : Z) (w : World) :
  fst (handleInput_start now w) = w \/
  (fst (handleInput_start now w) = clearSuggestion w /\
   snd (handleInput_start now w) = None).
Proof.
  unfold handleInput_start.
  repeat match goal with |- context [if ?c then _ else _] => destruct c end;
    cbn [fst snd]; auto.
Qed.

Lemma inv_dispatchInput (now : Z) (w : World) :
  overlay_inv w ->
  overlay_inv (dispatchInput now w) /\
  next_id (dispatchInput now w) = next_id w /\
  element (dispatchInput now w) = element w /\
  selection (dispatchInput now w) = selection w /\
  suppressedUntil (dispatchInput now w) = suppressedUntil w.
Proof.
  intros H. unfold dispatchInput.
  destruct (handleInput_start_cases now w) as [E|[E E']];
    destruct (handleInput_start now w) as [w' a]; cbn [fst snd] in *; subst.
  - destruct a; repeat split; exact H.
  - destruct (clearSuggestion_frame w) as (F1 & F2 & F3 & _ & F5 & _).
    repeat split; try assumption. now apply inv_clearSuggestion.
Qed.

Lemma inv_replaceInInput (full cur : str) (now : Z) (w : World) :
  overlay_inv w ->
  overlay_inv (replaceInInput full cur now w) /\
  next_id (replaceInInput full cur now w) = next_id w.
Proof.
  intros H. unfold replaceInInput. cbn zeta.
  match goal with |- context [dispatchInput now ?x] =>
    destruct (inv_dispatchInput now x H) as (A & B & _) end.
  split; [exact A | exact B].
Qed.

Lemma inv_replaceInContentEditable (full cur : str) (now : Z) (w : World) :
  overlay_inv w ->
  overlay_inv (replaceInContentEditable full cur now w) /\
  next_id (replaceInContentEditable full cur now w) = next_id w.
Proof.
  intros H. unfold replaceInContentEditable.
  destruct (selection w); [|now split].
  cbn zeta. destruct (findStartNode _ _ _ _) as [[i so]|]; [|now split].
  destruct (spliceRange _ _ _ _ _) as [nodes' inserted].
  match goal with |- context [dispatchInput now ?x] =>
    destruct (inv_dispatchInput now x H) as (A & B & _) end.
  split; [exact A | exact B].
Qed.

Lemma inv_acceptSuggestion (now now' : Z) (w : World) :
  overlay_inv w -> overlay_inv (acceptSuggestion now now' w).
Proof.
  intros H. unfold acceptSuggestion.
  destruct (currentSuggestion w); [|exact H].
  cbn zeta. apply inv_clearSuggestion.
  assert (H' : overlay_inv (set_suppressedUntil (now + 500)%Z w)) by exact H.
  destruct (is_contenteditable _).
  - now apply inv_replaceInContentEditable.
  - destruct (is_field _); [|exact H'].
    now apply inv_replaceInInput.
Qed.

Lemma inv_handleKeydown (key : str) (now now' : Z) (w : World) :
  overlay_inv w -> overlay_inv (handleKeydown key now now' w).
Proof.
  intros H. unfold handleKeydown.
  repeat match goal with |- context [if ?c then _ else _] => destruct c end.
  - now apply inv_acceptSuggestion.
  - now apply inv_clearSuggestion.
  - exact H.
  - exact H.
Qed.

Lemma inv_step (w : World) (ev : Event) :
  overlay_inv w -> overlay_inv (step w ev).
Proof.
  intros H. destruct ev; cbn [step].
  - now apply inv_dispatchInput.
  - destruct (nth_error (pending w) k); [|exact H].
    now apply inv_handleInput_resume.
  - now apply inv_handleKeydown.
  - destruct (timers w); [exact H|]. unfold deleteKeyTimeout.
    cbn zeta. destruct (_ <? _); [|exact H].
    now apply inv_clearSuggestion.
  - now apply inv_clearSuggestion.
  - exact H.
  - exact H.
  - exact H.
Qed.

Lemma inv_run (evs : list Event) (w : World) :
  overlay_inv w -> overlay_inv (run w evs).
Proof.
  unfold run. revert w. induction evs as [|ev evs IH]; intros w H.
  - exact H.
  - cbn [fold_left]. apply IH. now apply inv_step.
Qed.

Lemma inv_create (e : Element) (sel : option Boundary) :
  overlay_inv (create e sel).
Proof. exact I. Qed.

Lemma overlay_inv_length (w : World) : overlay_inv w -> length (body w) <= 1.
Proof.
  unfold overlay_inv. destruct (body w) as [|o [|o' b]]; simpl; intros H.
  - lia.
  - lia.
  - contradiction.
Qed.

(** C9: along every sequence of events of a manager, at most one ghost
    overlay is a child of the document body; when a new overlay is
    created, the body holds no overlay that was there before. *)
Theorem C9_at_most_one_overlay (e : Element) (sel : option Boundary)
    (evs : list Event) :
  let w := run (create e sel) evs in
  length (body w) <= 1 /\
  forall env text cur full pf o,
    In o (body (createGhostElement env text cur full pf w)) ->
    oid o = next_id w /\ ~ In o (body w).
Proof.
  cbn zeta. pose proof (inv_run evs (create e sel) (inv_create e sel)) as H.
  split; [now apply overlay_inv_length|].
  intros env text cur full pf o Ho.
  destruct (createGhostElement_spec env text cur full pf _ H) as (_ & Hid & _).
  specialize (Hid o Ho). split; [exact Hid|].
  intros Hin. unfold overlay_inv in H.
  destruct (body (run (create e sel) evs)) as [|x [|y b]];
    [destruct Hin | | contradiction].
  destruct Hin as [->|[]]. lia.
Qed.

End OverlayEvents.

(** ** Matching (claim C2) *)

Section Matching.

Lemma filter_idem {A} (p : A -> bool) (l : list A) :
  filter p (filter p l) = filter p l.
Proof.
  induction l as [|x l IH]; simpl; [reflexivity|].
  destruct (p x) eqn:E; simpl; [rewrite E|]; congruence.
Qed.



Lemma createGhostElement_suggestion (env : Env) (text cur full : str)
    (pf : Platform) (w : World) :
  currentSuggestion (createGhostElement env text cur full pf w)
  = currentSuggestion w.
Proof.
  unfold createGhostElement.
  destruct (clearGhostElement_frame w) as (_ & _ & _ & F & _).
  destruct (is_contenteditable _); cbn zeta; [|exact F].
  destruct pf; cbn [currentSuggestion set_ghostElement].
  - exact F.
  - now rewrite (proj2 (proj2 (proj2 (positionTwitterOverlay_only _ _ _)))).
Qed.

Lemma showSuggestion_suggestion (env : Env) (r : ResponseRecord)
    (cur : str) (w : World) :
  currentSuggestion (showSuggestion env r cur w) = Some r.
Proof.
  unfold showSuggestion.
  destruct (_ || _); cbn zeta; now rewrite createGhostElement_suggestion.
Qed.

(** The continuation of [handleInput] selects the head of the filtered
    cache. *)
Lemma handleInput_resume_suggestion (env : Env)
    (storage : option (list ResponseRecord)) (cur : str) (w : World) :
  currentSuggestion (handleInput_resume env storage cur w)
  = hd_error (filter (matchesPrefix (toLowerCase cur))
                (match storage with Some l => l | None => [] end)).
Proof.
  unfold handleInput_resume, fetchSuggestions. cbn zeta.
  set (p := matchesPrefix (toLowerCase cur)).
  set (cache := match storage with Some l => l | None => [] end).
  destruct (filter p cache) as [|r rest] eqn:E.
  - apply clearSuggestion_cleared.
  - rewrite <- E, filter_idem, E. apply showSuggestion_suggestion.
Qed.

Lemma text_split (nodes : list str) (b : Boundary) :
  textBefore nodes b ++ textAfter nodes b = concat nodes.
Proof.
  assert (K : forall k (l : list str),
             concat (firstn k l) ++ concat (skipn k l) = concat l).
  { intros k l. now rewrite <- concat_app, firstn_skipn. }
  destruct b as [i o|k]; simpl; [|apply K].
  rewrite <- (K i nodes) at 1. rewrite <- app_assoc. f_equal.
  rewrite app_assoc, firstn_skipn.
  clear K. revert i; induction nodes as [|n nodes IH]; intros [|i]; simpl;
    try reflexivity.
  apply IH.
Qed.

Lemma trim_nonempty (s : str) (c : ascii) :
  In c s -> is_ws c = false -> trim s <> [].
Proof.
  intros Hin Hc. unfold trim.
  destruct (trimStart_spec s) as (lead & Hs & Hl & Ht).
  destruct Ht as [E|(c0 & r & E & Hc0)].
  - exfalso. rewrite E, app_nil_r in Hs. subst lead.
    unfold all_ws in Hl. rewrite forallb_forall in Hl.
    specialize (Hl c Hin). congruence.
  - destruct (trimEnd_head _ _ _ E Hc0) as (r' & ->). discriminate.
Qed.

Lemma lastWord_char (t : str) :
  lastWord t <> [] -> exists c, In c t /\ is_ws c = false.
Proof.
  intros Hne.
  destruct (lastWord_spec t) as (b & tl & Ht & _ & _ & (pre & Hb & Hw & _)).
  destruct (lastWord t) as [|c w]; [congruence|].
  exists c. split.
  - rewrite Ht, Hb. apply in_or_app. left. apply in_or_app. right. now left.
  - unfold no_ws in Hw. simpl in Hw. apply andb_true_iff in Hw as [Hc _].
    now apply negb_true_iff in Hc.
Qed.

(** A region whose current word is not empty has text: the check of
    lines 93-98 never fires after the length check. *)
Lemma region_has_text (w : World) :
  is_contenteditable (element w) = true ->
  getCurrentText w <> [] ->
  (length (trim (concat (textNodes (element w)))) =? 0) = false.
Proof.
  unfold getCurrentText. intros -> H.
  destruct (selection w) as [b|]; [|congruence].
  destruct (lastWord_char _ H) as (c & Hin & Hc).
  apply Nat.eqb_neq. intros E. apply length_zero_iff_nil in E.
  revert E. apply trim_nonempty with (c := c); [|assumption].
  rewrite <- (text_split _ b). apply in_or_app. now left.
Qed.










(** Two records start with "Hi": the one first in the cache is chosen,
    not the shorter one. *)
Example two_records_start_with_Hi :
  currentSuggestion
    (handleInput 10 linkedin_com (Some [thanks; hi_long; hi_short])
       (create (textarea (lit "Hi") 2) None))
  = Some hi_long.
Proof. reflexivity. Qed.


End Matching.

(** ** The suppression window (claim C4) *)

Section Suppression.

Lemma dispatchInput_suppressed (now : Z) (w : World) :
  (now < suppressedUntil w)%Z -> dispatchInput now w = clearSuggestion w.
Proof.
  intros H. unfold dispatchInput, handleInput_start.
  destruct (Z.ltb_spec now (suppressedUntil w)); [reflexivity | lia].
Qed.

(** Inside the suppression window the replacement only writes the
    editable: the listener run by the dispatched event clears the
    suggestion and asks the storage for nothing. *)
Lemma replaceInInput_suppressed (full cur : str) (now : Z) (w : World) :
  (now < suppressedUntil w)%Z ->
  overlay_only (set_element (element (replaceInInput full cur now w)) w)
    (replaceInInput full cur now w) /\
  currentSuggestion (replaceInInput full cur now w) = None.
Proof.
  intros H. unfold replaceInInput. cbn zeta.
  rewrite dispatchInput_suppressed by exact H.
  split; [|apply clearSuggestion_cleared].
  match goal with |- context [clearSuggestion ?x] =>
    destruct (clearSuggestion_frame x) as (F1 & F2 & _ & F4 & F5 & F6 & F7)
  end.
  repeat split; cbn [element selection isComposing suppressedUntil pending
                      timers set_element] in *; congruence.
Qed.

Lemma replaceInContentEditable_queue (full cur : str) (now : Z) (w : World) :
  (now < suppressedUntil w)%Z ->
  pending (replaceInContentEditable full cur now w) = pending w /\
  suppressedUntil (replaceInContentEditable full cur now w)
  = suppressedUntil w /\
  timers (replaceInContentEditable full cur now w) = timers w /\
  isComposing (replaceInContentEditable full cur now w) = isComposing w.
Proof.
  intros H. unfold replaceInContentEditable.
  destruct (selection w); [|repeat split].
  cbn zeta. destruct (findStartNode _ _ _ _) as [[i so]|]; [|repeat split].
  destruct (spliceRange _ _ _ _ _) as [nodes' inserted].
  rewrite dispatchInput_suppressed by exact H.
  match goal with |- context [clearSuggestion ?x] =>
    destruct (clearSuggestion_frame x) as (_ & _ & _ & F4 & F5 & F6 & F7)
  end.
  repeat split; assumption.
Qed.

(** A commit sets the deadline, leaves no suggestion and no overlay
    handle, and queues no storage request, when the listener of its own
    [input] event reads the clock before the deadline. *)
Lemma acceptSuggestion_spec (now now' : Z) (w : World) :
  isSome (currentSuggestion w) = true -> (now' < now + 500)%Z ->
  let w' := acceptSuggestion now now' w in
  suppressedUntil w' = (now + 500)%Z /\
  currentSuggestion w' = None /\ ghostElement w' = None /\
  pending w' = pending w /\ timers w' = timers w /\
  isComposing w' = isComposing w.
Proof.
  intros Hs Hn. unfold acceptSuggestion.
  destruct (currentSuggestion w) as [r|]; [|discriminate].
  cbn zeta.
  set (w1 := set_suppressedUntil (now + 500)%Z w).
  assert (H1 : (now' < suppressedUntil w1)%Z) by exact Hn.
  match goal with |- context [clearSuggestion ?x] =>
    destruct (clearSuggestion_frame x) as (_ & _ & _ & F4 & F5 & F6 & F7);
    destruct (clearSuggestion_cleared x) as (C1 & C2);
    rewrite F4, F5, F6, F7, C1, C2
  end.
  destruct (is_contenteditable (element w1)).
  - destruct (replaceInContentEditable_queue (suggestionText r)
                (getCurrentText w1) now' w1 H1) as (Q1 & Q2 & Q3 & Q4).
    rewrite Q1, Q2, Q3, Q4. repeat split.
  - destruct (is_field (element w1)); [|repeat split].
    destruct (replaceInInput_suppressed (suggestionText r)
                (getCurrentText w1) now' w1 H1)
      as ((_ & _ & Q4 & Q2 & Q1 & Q3) & _).
    rewrite Q1, Q2, Q3, Q4. repeat split.
Qed.

Lemma handleKeydown_Tab (now now' : Z) (w : World) :
  isSome (currentSuggestion w) = true ->
  handleKeydown (lit "Tab") now now' w = acceptSuggestion now now' w.
Proof. intros H. unfold handleKeydown. now rewrite H. Qed.

Lemma handleKeydown_Escape (now now' : Z) (w : World) :
  isSome (currentSuggestion w) = true ->
  handleKeydown (lit "Escape") now now' w = clearSuggestion w.
Proof. intros H. unfold handleKeydown. now rewrite H. Qed.

(** Input events before the deadline leave no suggestion and queue
    nothing. *)
Lemma run_suppressed_inputs (later : list Z) (w : World) :
  Forall (fun t => (t < suppressedUntil w)%Z) later ->
  currentSuggestion w = None ->
  currentSuggestion (run w (map Input later)) = None /\
  pending (run w (map Input later)) = pending w /\
  suppressedUntil (run w (map Input later)) = suppressedUntil w.
Proof.
  unfold run. revert w. induction later as [|t later IH]; intros w H Hc.
  - repeat split. exact Hc.
  - inversion H as [|? ? Ht Hl]; subst. cbn [map fold_left step].
    rewrite dispatchInput_suppressed by exact Ht.
    destruct (clearSuggestion_frame w) as (_ & _ & _ & _ & F5 & F6 & _).
    destruct (IH (clearSuggestion w)) as (A & B & C).
    + now rewrite F5.
    + apply clearSuggestion_cleared.
    + rewrite A, B, C. repeat split; assumption.
Qed.

(** C4: a commit by Tab sets the suppression deadline 500 ms ahead;
    the [input] event the commit dispatches, and every input event
    that arrives before the deadline, activates no suggestion and
    starts no lookup that could activate one later. *)
Theorem C4_commit_suppresses_own_events (now now' : Z) (later : list Z)
    (w : World) :
  isSome (currentSuggestion w) = true ->
  (now' < now + 500)%Z ->
  Forall (fun t => (t < now + 500)%Z) later ->
  let w1 := handleKeydown (lit "Tab") now now' w in
  let w2 := run w1 (map Input later) in
  (suppressedUntil w1 = (now + 500)%Z /\
   currentSuggestion w1 = None /\ pending w1 = pending w) /\
  (currentSuggestion w2 = None /\ pending w2 = pending w).
Proof.
  intros Hs Hn Hl. cbn zeta. rewrite handleKeydown_Tab by exact Hs.
  destruct (acceptSuggestion_spec now now' w Hs Hn) as (A & B & _ & D & _).
  split; [repeat split; assumption|].
  destruct (run_suppressed_inputs later (acceptSuggestion now now' w))
    as (E & F & _).
  - now rewrite A.
  - exact B.
  - split; [exact E | congruence].
Qed.

Lemma C4_witness :
  let w := suggested_in_textarea in
  let w1 := handleKeydown (lit "Tab") 1000 1001 w in
  let w2 := run w1 (map Input [1002; 1400]%Z) in
  (isSome (currentSuggestion w) = true /\ (1001 < 1000 + 500)%Z /\
   Forall (fun t => (t < 1000 + 500)%Z) [1002; 1400]%Z) /\
  (suppressedUntil w1 = (1000 + 500)%Z /\
   currentSuggestion w1 = None /\ pending w1 = pending w) /\
  (currentSuggestion w2 = None /\ pending w2 = pending w).
Proof.
  cbn zeta.
  assert (H1 : isSome (currentSuggestion suggested_in_textarea) = true)
    by reflexivity.
  assert (H2 : (1001 < 1000 + 500)%Z) by lia.
  assert (H3 : Forall (fun t => (t < 1000 + 500)%Z) [1002; 1400]%Z)
    by (repeat constructor; lia).
  split; [repeat split; assumption|].
  exact (C4_commit_suppresses_own_events 1000 1001 [1002; 1400]%Z
           suggested_in_textarea H1 H2 H3).
Defined.

End Suppression.

(** ** Short text and dismissal (claims C5 and C6) *)

Section Dismissal.




(** C6: Escape with an active suggestion clears the suggestion, the
    overlay handle and the rendered overlay, and leaves the element, its
    text and the selection as they were. *)
Theorem C6_escape_keeps_text (now now' : Z) (w : World) :
  isSome (currentSuggestion w) = true ->
  overlay_inv w ->
  let w' := handleKeydown (lit "Escape") now now' w in
  currentSuggestion w' = None /\ ghostElement w' = None /\ body w' = [] /\
  element w' = element w /\ selection w' = selection w /\
  editableText w' = editableText w.
Proof.
  intros Hs Hi. cbn zeta. rewrite handleKeydown_Escape by exact Hs.
  destruct (clearSuggestion_cleared w) as (C1 & C2).
  destruct (clearSuggestion_frame w) as (F1 & F2 & _).
  repeat split; try assumption.
  - now apply clearSuggestion_body.
  - unfold editableText. now rewrite F1.
Qed.

Lemma C6_witness :
  let w := suggested_in_region linkedin_com in
  let w' := handleKeydown (lit "Escape") 30 30 w in
  (isSome (currentSuggestion w) = true /\ body w <> []) /\
  currentSuggestion w' = None /\ ghostElement w' = None /\ body w' = [] /\
  element w' = element w /\ selection w' = selection w /\
  editableText w' = editableText w.
Proof.
  cbn zeta.
  assert (H2 : overlay_inv (suggested_in_region linkedin_com))
    by (vm_compute; split; [reflexivity | lia]).
  split; [split; [reflexivity | discriminate]|].
  exact (C6_escape_keeps_text 30 30 (suggested_in_region linkedin_com)
           eq_refl H2).
Defined.

End Dismissal.

(** ** Text fields (claim C10) *)

Section TextFields.

Lemma dispatchInput_page (now : Z) (w : World) :
  element (dispatchInput now w) = element w /\
  selection (dispatchInput now w) = selection w.
Proof.
  unfold dispatchInput.
  destruct (handleInput_start_cases now w) as [E|[E E']];
    destruct (handleInput_start now w) as [w' a]; cbn [fst snd] in *; subst.
  - destruct a; split; reflexivity.
  - destruct (clearSuggestion_frame w) as (F1 & F2 & _). now split.
Qed.

Lemma wordStart_le (v : str) (n : nat) : wordStart v n <= n.
Proof.
  induction n as [|m IH]; simpl; [lia|].
  destruct (nth_error v m) as [c|]; [|lia].
  destruct (ascii_eqb c space || ascii_eqb c newline); lia.
Qed.

Lemma ascii_eqb_false (a b : ascii) : a <> b -> ascii_eqb a b = false.
Proof.
  intros H. unfold ascii_eqb. destruct (Ascii.eqb_spec a b); congruence.
Qed.

Lemma normalizeNewlines_id (s : str) :
  ~ In carriage_return s -> normalizeNewlines s = s.
Proof.
  induction s as [|c s IH]; intros H; [reflexivity|].
  cbn [normalizeNewlines].
  rewrite ascii_eqb_false by (intros ->; apply H; now left).
  f_equal. apply IH. intros Hin. apply H. now right.
Qed.

Lemma stripNewlines_id (s : str) :
  ~ In carriage_return s -> ~ In newline s -> stripNewlines s = s.
Proof.
  unfold stripNewlines.
  induction s as [|c s IH]; intros H1 H2; [reflexivity|].
  cbn [filter].
  rewrite !ascii_eqb_false
    by (intros ->; (apply H1 + apply H2); now left).
  cbn [orb negb]. f_equal.
  apply IH; intros Hin; [apply H1 | apply H2]; now right.
Qed.

(** A storable string is stored as it is. *)
Lemma assignValue_storable (e : Element) (s : str) :
  storable e s -> assignValue e s = s.
Proof.
  intros [Hcr Hlf]. unfold assignValue.
  destruct (str_eqb (tagName e) (lit "TEXTAREA")).
  - now apply normalizeNewlines_id.
  - destruct (str_eqb (tagName e) (lit "INPUT")); [|reflexivity].
    apply stripNewlines_id; [assumption | now apply Hlf].
Qed.

Lemma storable_app (e : Element) (a b : str) :
  storable e a -> storable e b -> storable e (a ++ b).
Proof.
  intros [A1 A2] [B1 B2]. split.
  - intros H. apply in_app_or in H. tauto.
  - intros E H. apply in_app_or in H. specialize (A2 E). specialize (B2 E).
    tauto.
Qed.

Lemma storable_firstn (e : Element) (n : nat) (s : str) :
  storable e s -> storable e (firstn n s).
Proof.
  intros [A1 A2]. split.
  - intros H. apply A1. rewrite <- (firstn_skipn n s).
    apply in_or_app. now left.
  - intros E H. apply (A2 E). rewrite <- (firstn_skipn n s).
    apply in_or_app. now left.
Qed.

Lemma storable_skipn (e : Element) (n : nat) (s : str) :
  storable e s -> storable e (skipn n s).
Proof.
  intros [A1 A2]. split.
  - intros H. apply A1. rewrite <- (firstn_skipn n s).
    apply in_or_app. now right.
  - intros E H. apply (A2 E). rewrite <- (firstn_skipn n s).
    apply in_or_app. now right.
Qed.

(** [replaceInInput] assigns the text before the start of the scanned
    word, the full text, and the text after the caret, and asks for
    the caret behind the full text. *)
Lemma replaceInInput_assigned (full cur : str) (now : Z) (w : World) :
  let e := element w in
  let e' := element (replaceInInput full cur now w) in
  let startPos := wordStart (value e) (selectionStart e) in
  value e' = assignValue e (firstn startPos (value e) ++ full
                            ++ skipn (selectionStart e) (value e)) /\
  selectionStart e' = Nat.min (startPos + length full) (length (value e')) /\
  contenteditable e' = contenteditable e /\ tagName e' = tagName e.
Proof.
  cbn zeta. unfold replaceInInput. cbn zeta.
  rewrite (proj1 (dispatchInput_page _ _)).
  cbn [element set_element value selectionStart contenteditable tagName].
  rewrite substring_0. unfold substring_from.
  repeat split; reflexivity.
Qed.

(** When the field holds the old value and the full text as they are,
    the new value is the assigned string and the caret is behind the
    full text. *)
Lemma replaceInInput_element (full cur : str) (now : Z) (w : World) :
  let e := element w in
  let e' := element (replaceInInput full cur now w) in
  let startPos := wordStart (value e) (selectionStart e) in
  storable e (value e) -> storable e full ->
  value e' = firstn startPos (value e) ++ full
             ++ skipn (selectionStart e) (value e) /\
  (selectionStart e <= length (value e) ->
   selectionStart e' = startPos + length full) /\
  contenteditable e' = contenteditable e /\ tagName e' = tagName e.
Proof.
  cbn zeta. intros Hv Hfull.
  destruct (replaceInInput_assigned full cur now w) as (Ev & Es & Ec & Et).
  cbn zeta in Ev, Es.
  rewrite assignValue_storable in Ev
    by (apply storable_app; [now apply storable_firstn|];
        apply storable_app; [assumption | now apply storable_skipn]).
  split; [exact Ev|]. split; [|split; assumption].
  intros Hle. rewrite Es, Ev. apply Nat.min_l.
  rewrite !length_app, length_firstn, length_skipn.
  pose proof (wordStart_le (value (element w)) (selectionStart (element w))).
  lia.
Qed.

Lemma acceptSuggestion_field (now now' : Z) (w : World) (r : ResponseRecord) :
  currentSuggestion w = Some r ->
  is_contenteditable (element w) = false -> is_field (element w) = true ->
  element (acceptSuggestion now now' w)
  = element (replaceInInput (suggestionText r) (getCurrentText w) now' w).
Proof.
  intros Hr Hc Hf. unfold acceptSuggestion. rewrite Hr. cbn zeta.
  rewrite (proj1 (clearSuggestion_frame _)).
  cbn [element set_suppressedUntil]. rewrite Hc, Hf.
  unfold replaceInInput. cbn zeta.
  now rewrite !(proj1 (dispatchInput_page _ _)).
Qed.

Lemma native_clearGhostElement (w : World) :
  ghostElement w = None -> clearGhostElement w = w.
Proof. intros H. unfold clearGhostElement. now rewrite H. Qed.

Lemma native_clearSuggestion (w : World) :
  native_inv w -> native_inv (clearSuggestion w).
Proof.
  intros (Hn & Hg & Hb). unfold clearSuggestion.
  rewrite native_clearGhostElement by exact Hg.
  exact (conj Hn (conj Hg Hb)).
Qed.

(** On an element that is not contenteditable, [showSuggestion] makes
    the record the current suggestion and creates no overlay. *)
Lemma native_showSuggestion (env : Env) (r : ResponseRecord) (cur : str)
    (w : World) :
  native_inv w ->
  native_inv (showSuggestion env r cur w) /\
  currentSuggestion (showSuggestion env r cur w) = Some r /\
  next_id (showSuggestion env r cur w) = next_id w.
Proof.
  intros (Hn & Hg & Hb).
  assert (K : forall text full pf,
             createGhostElement env text cur full pf
               (set_currentSuggestion (Some r) w)
             = set_currentSuggestion (Some r) w).
  { intros text full pf. unfold createGhostElement.
    rewrite native_clearGhostElement by exact Hg.
    cbn [element set_currentSuggestion]. now rewrite (proj1 Hn). }
  unfold showSuggestion. cbn zeta.
  destruct (_ || _); rewrite K;
    exact (conj (conj Hn (conj Hg Hb)) (conj eq_refl eq_refl)).
Qed.

Lemma native_handleInput_resume (env : Env)
    (storage : option (list ResponseRecord)) (cur : str) (w : World) :
  native_inv w -> native_inv (handleInput_resume env storage cur w).
Proof.
  intros H. unfold handleInput_resume. cbn zeta.
  destruct (fetchSuggestions storage cur); [now apply native_clearSuggestion|].
  destruct (filter _ _) as [|r0 rest]; [now apply native_clearSuggestion|].
  now apply native_showSuggestion.
Qed.

Lemma native_dispatchInput (now : Z) (w : World) :
  native_inv w -> native_inv (dispatchInput now w).
Proof.
  intros H. unfold dispatchInput.
  destruct (handleInput_start_cases now w) as [E|[E E']];
    destruct (handleInput_start now w) as [w' a]; cbn [fst snd] in *; subst.
  - destruct a; exact H.
  - now apply native_clearSuggestion.
Qed.

Lemma native_acceptSuggestion (now now' : Z) (w : World) :
  native_inv w -> native_inv (acceptSuggestion now now' w).
Proof.
  intros H. unfold acceptSuggestion.
  destruct (currentSuggestion w) as [r|]; [|exact H].
  cbn zeta. apply native_clearSuggestion.
  destruct H as ((Hc & Hf) & Hg & Hb & Hid).
  cbn [element set_suppressedUntil]. rewrite Hc, Hf.
  unfold replaceInInput. cbn zeta. apply native_dispatchInput.
  repeat split; assumption.
Qed.

Lemma native_step (w : World) (ev : Event) :
  native_inv w -> native_events [ev] -> native_inv (step w ev).
Proof.
  intros H Hev. destruct ev; cbn [step].
  - now apply native_dispatchInput.
  - destruct (nth_error (pending w) k); [|exact H].
    apply native_handleInput_resume. exact H.
  - unfold handleKeydown.
    repeat match goal with |- context [if ?c then _ else _] => destruct c end.
    + now apply native_acceptSuggestion.
    + now apply native_clearSuggestion.
    + exact H.
    + exact H.
  - destruct (timers w); [exact H|]. unfold deleteKeyTimeout. cbn zeta.
    destruct (_ <? _); [|exact H].
    apply native_clearSuggestion. exact H.
  - now apply native_clearSuggestion.
  - exact H.
  - exact H.
  - destruct H as (_ & Hg & Hb & Hid). destruct Hev as [Hn _].
    repeat split; try assumption; apply Hn.
Qed.

Lemma native_run (evs : list Event) (w : World) :
  native_inv w -> native_events evs -> native_inv (run w evs).
Proof.
  unfold run. revert w. induction evs as [|ev evs IH]; intros w H Hev.
  - exact H.
  - cbn [fold_left]. apply IH.
    + apply native_step; [exact H|]. destruct ev; simpl in *; tauto.
    + destruct ev; simpl in *; tauto.
Qed.

Lemma storableb_spec (e : Element) (s : str) :
  storableb e s = true -> storable e s.
Proof.
  unfold storableb, storable. intros H.
  apply andb_true_iff in H as [H1 H2].
  assert (K : forall c, forallb (fun x => negb (ascii_eqb x c)) s = true ->
                        ~ In c s).
  { intros c Hc Hin. rewrite forallb_forall in Hc. specialize (Hc c Hin).
    unfold ascii_eqb in Hc. rewrite Ascii.eqb_refl in Hc. discriminate. }
  split; [now apply K|].
  intros E. rewrite E in H2. now apply K.
Qed.

(** C10: on a text field that is not contenteditable, whatever events
    arrive, the overlay handle stays empty, no overlay is in the
    document and none has been created ([next_id] counts the created
    nodes); a matching record still becomes the current suggestion,
    still without an overlay; and Tab still assigns to the value the
    text before the scanned word, the full text of the current
    suggestion and the text after the caret.  When the old value and
    the full text have no line break that the field does not keep, the
    new value is that string, with the full text in it unchanged. *)
Theorem C10_native_field_has_no_overlay (e : Element)
    (sel : option Boundary) (evs : list Event) :
  native e -> native_events evs ->
  let w := run (create e sel) evs in
  (ghostElement w = None /\ body w = [] /\ next_id w = 0) /\
  (forall env storage cur r rest,
      filter (matchesPrefix (toLowerCase cur))
        (match storage with Some l => l | None => [] end) = r :: rest ->
      let w' := handleInput_resume env storage cur w in
      currentSuggestion w' = Some r /\ ghostElement w' = None /\
      body w' = []) /\
  (forall now now' r,
      currentSuggestion w = Some r ->
      let w' := handleKeydown (lit "Tab") now now' w in
      let v := value (element w) in
      let cursorPos := selectionStart (element w) in
      let assigned :=
        firstn (wordStart v cursorPos) v ++ suggestionText r
        ++ skipn cursorPos v in
      value (element w') = assignValue (element w) assigned /\
      (storable (element w) v -> storable (element w) (suggestionText r) ->
       value (element w') = assigned) /\
      ghostElement w' = None /\ body w' = []).
Proof.
  intros Hn Hev. cbn zeta.
  assert (H : native_inv (run (create e sel) evs)).
  { apply native_run; [|exact Hev].
    exact (conj Hn (conj eq_refl (conj eq_refl eq_refl))). }
  set (w := run (create e sel) evs) in *.
  split; [exact (proj2 H)|]. split.
  - intros env storage cur r rest E.
    destruct (native_handleInput_resume env storage cur w H)
      as (_ & Hg & Hb & _).
    rewrite handleInput_resume_suggestion, E.
    exact (conj eq_refl (conj Hg Hb)).
  - intros now now' r Hr.
    assert (Hs : isSome (currentSuggestion w) = true) by now rewrite Hr.
    rewrite handleKeydown_Tab by exact Hs.
    destruct (native_acceptSuggestion now now' w H) as (_ & Hg & Hb & _).
    destruct H as ((Hc & Hf) & _).
    rewrite (acceptSuggestion_field now now' w r Hr Hc Hf).
    split; [|split; [|now split]].
    + apply (replaceInInput_assigned (suggestionText r) (getCurrentText w)
               now' w).
    + intros Hv Ht.
      apply (replaceInInput_element (suggestionText r) (getCurrentText w)
               now' w Hv Ht).
Qed.

Lemma C10_witness :
  let e := textarea [] 0 in
  let evs := [Edit (textarea (lit "Thank") 5) None; Input 10;
              Storage 0 x_com_wide (Some [thanks])] in
  let w := run (create e None) evs in
  (native e /\ native_events evs) /\
  (ghostElement w = None /\ body w = [] /\ next_id w = 0) /\
  currentSuggestion w = Some thanks /\
  (storable (element w) (value (element w)) /\
   storable (element w) (suggestionText thanks)) /\
  value (element (handleKeydown (lit "Tab") 20 20 w))
  = lit "Thank you for connecting!".
Proof.
  cbn zeta.
  assert (H1 : native (textarea [] 0)) by (split; reflexivity).
  assert (H2 : native_events
                 [Edit (textarea (lit "Thank") 5) None; Input 10;
                  Storage 0 x_com_wide (Some [thanks])])
    by (simpl; repeat split).
  split; [split; assumption|].
  destruct (C10_native_field_has_no_overlay (textarea [] 0) None
              [Edit (textarea (lit "Thank") 5) None; Input 10;
               Storage 0 x_com_wide (Some [thanks])] H1 H2)
    as (A & _ & C).
  split; [exact A|]. split; [reflexivity|].
  assert (S1 : storable (textarea (lit "Thank") 5) (lit "Thank"))
    by (apply storableb_spec; reflexivity).
  assert (S2 : storable (textarea (lit "Thank") 5) (suggestionText thanks))
    by (apply storableb_spec; reflexivity).
  split; [split; assumption|].
  exact (proj1 (proj2 (C 20%Z 20%Z thanks eq_refl)) S1 S2).
Defined.

(** A template with a line break, committed in a single-line input:
    the suggestion becomes active on "Th", and Tab leaves "Thanks,Bob"
    in the value, with the caret at its end; the full text, which has
    eleven characters, is not part of the value. *)
Lemma C10_line_break_counterexample :
  let e := text_input [] 0 in
  let evs := [Edit (text_input (lit "Th") 2) None; Input 10;
              Storage 0 linkedin_com (Some [sign_off])] in
  let w := run (create e None) evs in
  let w' := handleKeydown (lit "Tab") 20 20 w in
  (native e /\ native_events evs) /\
  currentSuggestion w = Some sign_off /\
  suggestionText sign_off = lit "Thanks," ++ [newline] ++ lit "Bob" /\
  value (element w') = lit "Thanks,Bob" /\
  selectionStart (element w') = 10 /\
  ~ (exists pre post,
        value (element w') = pre ++ suggestionText sign_off ++ post).
Proof.
  cbn zeta. split; [repeat split|].
  split; [reflexivity|]. split; [reflexivity|].
  split; [reflexivity|]. split; [reflexivity|].
  intros (pre & post & E). apply (f_equal (@length ascii)) in E.
  rewrite !length_app in E.
  change (10 = length pre + (11 + length post)) in E. lia.
Qed.

(** The same template with the line break written CR LF, committed in
    a [textarea]: the value holds one LF for the pair, and the caret,
    asked for at 12, is at 11, the end of the value. *)
Example crlf_in_textarea :
  let w := run (create (textarea [] 0) None)
             [Edit (textarea (lit "Th") 2) None; Input 10;
              Storage 0 linkedin_com (Some [sign_off_crlf])] in
  let w' := handleKeydown (lit "Tab") 20 20 w in
  currentSuggestion w = Some sign_off_crlf /\
  length (suggestionText sign_off_crlf) = 12 /\
  value (element w') = lit "Thanks," ++ [newline] ++ lit "Bob" /\
  selectionStart (element w') = 11.
Proof. repeat split. Qed.

End TextFields.

(** ** What a commit writes *)

Section CommitText.

Lemma ascii_eqb_eq (a b : ascii) : ascii_eqb a b = true <-> a = b.
Proof. unfold ascii_eqb. apply Ascii.eqb_eq. Qed.

Lemma lastIndexOf_from_spec (c : ascii) (t : str) (i0 : nat) :
  match lastIndexOf_from i0 c t with
  | Some j =>
      exists pre word,
        t = pre ++ c :: word /\ j = i0 + length pre /\ ~ In c word
  | None => ~ In c t
  end.
Proof.
  revert i0. induction t as [|x t IH]; intros i0; simpl.
  - intros [].
  - specialize (IH (S i0)).
    destruct (lastIndexOf_from (S i0) c t) as [j|].
    + destruct IH as (pre & word & -> & -> & Hw).
      exists (x :: pre), word. simpl. repeat split; [lia | assumption].
    + destruct (ascii_eqb x c) eqn:E.
      * apply ascii_eqb_eq in E. subst x.
        exists [], t. simpl. repeat split; [lia | assumption].
      * intros [->|H]; [|now apply IH].
        assert (ascii_eqb c c = true) by now apply ascii_eqb_eq.
        congruence.
Qed.

(** The start index that [replaceInContentEditable] computes splits
    the text before the caret behind its last space. *)
Lemma startIndex_spec (t : str) :
  let startIndex :=
    match lastIndexOf t space with Some i => i + 1 | None => 0 end in
  exists pre word,
    t = pre ++ word /\ length pre = startIndex /\ ~ In space word /\
    (pre = [] \/ exists p, pre = p ++ [space]).
Proof.
  cbn zeta. unfold lastIndexOf.
  pose proof (lastIndexOf_from_spec space t 0) as H.
  destruct (lastIndexOf_from 0 space t) as [j|].
  - destruct H as (pre & word & -> & -> & Hw).
    exists (pre ++ [space]), word. rewrite <- app_assoc. simpl.
    repeat split; [rewrite length_app; simpl; lia | assumption |].
    right. now exists pre.
  - exists [], t. repeat split; [assumption | now left].
Qed.

(** The scan of [replaceInInput] stops behind the last space or line
    break before the caret. *)
Lemma wordStart_spec (v : str) (n : nat) :
  n <= length v ->
  exists pre word,
    firstn n v = pre ++ word /\ length pre = wordStart v n /\
    ~ In space word /\ ~ In newline word /\
    (pre = [] \/ exists p c, pre = p ++ [c] /\ (c = space \/ c = newline)).
Proof.
  induction n as [|m IH]; intros Hn.
  - exists [], []. simpl. repeat split; auto.
  - assert (Hm : m < length v) by lia.
    destruct (nth_error v m) as [c|] eqn:Ec;
      [|apply nth_error_None in Ec; lia].
    assert (Hf : firstn (S m) v = firstn m v ++ [c]).
    { rewrite <- (firstn_skipn m v) at 1.
      assert (Hs : skipn m v = c :: skipn (S m) v).
      { clear IH Hn Hm. revert v Ec.
        induction m as [|m IHm]; intros [|x v] Ec; simpl in *;
          try discriminate.
        - now inversion Ec.
        - now apply IHm. }
      rewrite Hs. rewrite firstn_app, length_firstn, firstn_firstn.
      replace (Nat.min (S m) m) with m by lia.
      replace (S m - Nat.min m (length v)) with 1 by lia.
      reflexivity. }
    cbn [wordStart]. rewrite Ec.
    destruct (ascii_eqb c space || ascii_eqb c newline) eqn:E.
    + exists (firstn m v ++ [c]), []. rewrite Hf, app_nil_r.
      repeat split; auto.
      * rewrite length_app, length_firstn. simpl. lia.
      * right. exists (firstn m v), c. split; [reflexivity|].
        apply orb_true_iff in E as [E|E]; apply ascii_eqb_eq in E; auto.
    + destruct (IH ltac:(lia)) as (pre & word & Hv & Hl & H1 & H2 & H3).
      exists pre, (word ++ [c]). rewrite Hf, Hv, app_assoc.
      apply orb_false_iff in E as [E1 E2].
      repeat split; auto.
      * intros H. apply in_app_or in H as [H|[H|[]]]; [now apply H1|].
        subst c. assert (ascii_eqb space space = true)
          by now apply ascii_eqb_eq. congruence.
      * intros H. apply in_app_or in H as [H|[H|[]]]; [now apply H2|].
        subst c. assert (ascii_eqb newline newline = true)
          by now apply ascii_eqb_eq. congruence.
Qed.

(** The text written by a commit in a text field, by the scan of
    [replaceInInput], when the field holds its value and the full text
    as they are. *)
Lemma field_commit_text (now now' : Z) (w : World) (r : ResponseRecord) :
  native (element w) ->
  currentSuggestion w = Some r ->
  selectionStart (element w) <= length (value (element w)) ->
  storable (element w) (value (element w)) ->
  storable (element w) (suggestionText r) ->
  let w' := handleKeydown (lit "Tab") now now' w in
  exists pre word,
    caretText w = Some (pre ++ word) /\
    ~ In space word /\ ~ In newline word /\
    (pre = [] \/ exists p c, pre = p ++ [c] /\ (c = space \/ c = newline)) /\
    editableText w' = pre ++ suggestionText r ++ textAfterCaret w /\
    caretText w' = Some (pre ++ suggestionText r).
Proof.
  intros (Hc & Hf) Hr Hle Hold Hnew. cbn zeta.
  assert (Hs : isSome (currentSuggestion w) = true) by now rewrite Hr.
  rewrite handleKeydown_Tab by exact Hs.
  pose proof (acceptSuggestion_field now now' w r Hr Hc Hf) as He.
  destruct (replaceInInput_element (suggestionText r) (getCurrentText w)
              now' w Hold Hnew) as (Hv & Hp & Hce & Htag).
  specialize (Hp Hle). rewrite <- He in Hv, Hp, Hce, Htag.
  destruct (wordStart_spec (value (element w)) (selectionStart (element w)) Hle)
    as (pre & word & Hsplit & Hlen & H1 & H2 & H3).
  assert (Hpre : firstn (wordStart (value (element w))
                           (selectionStart (element w)))
                   (value (element w)) = pre).
  { pose proof (wordStart_le (value (element w)) (selectionStart (element w))).
    replace (firstn (wordStart (value (element w))
                       (selectionStart (element w))) (value (element w)))
      with (firstn (wordStart (value (element w))
                      (selectionStart (element w)))
              (firstn (selectionStart (element w)) (value (element w))))
      by (rewrite firstn_firstn; f_equal; lia).
    rewrite Hsplit, <- Hlen, firstn_app, Nat.sub_diag, firstn_all.
    simpl. apply app_nil_r. }
  exists pre, word.
  unfold caretText, editableText, textAfterCaret, is_contenteditable, is_field.
  rewrite Hce, Htag.
  unfold is_contenteditable, is_field in Hc, Hf. rewrite Hc, Hf.
  rewrite Hsplit, Hv, Hp, Hpre.
  repeat split; try assumption.
  rewrite <- Hlen, <- length_app, app_assoc. f_equal.
  rewrite firstn_app, firstn_all, Nat.sub_diag. simpl. apply app_nil_r.
Qed.

Lemma skipn_nth (nodes : list str) (j : nat) :
  j < length nodes -> skipn j nodes = nth j nodes [] :: skipn (S j) nodes.
Proof.
  revert j. induction nodes as [|n nodes IH]; intros [|j] H; simpl in *;
    try lia; [reflexivity|].
  apply IH. lia.
Qed.

Lemma concat_firstn_S (nodes : list str) (j : nat) :
  j < length nodes ->
  concat (firstn (S j) nodes) = concat (firstn j nodes) ++ nth j nodes [].
Proof.
  revert j. induction nodes as [|n nodes IH]; intros [|j] H; simpl in *;
    try lia.
  - now rewrite app_nil_r.
  - rewrite IH by lia. now rewrite app_assoc.
Qed.

Lemma concat_firstn_le (nodes : list str) (i j : nat) :
  i <= j ->
  length (concat (firstn i nodes)) <= length (concat (firstn j nodes)).
Proof.
  revert i j. induction nodes as [|n nodes IH]; intros [|i] [|j] H;
    simpl; try lia.
  rewrite !length_app. specialize (IH i j). lia.
Qed.

Lemma firstn_app_exact {A} (a b : list A) :
  firstn (length a) (a ++ b) = a.
Proof.
  rewrite firstn_app, firstn_all, Nat.sub_diag. simpl. apply app_nil_r.
Qed.

(** The walker finds the first text node that ends at or behind
    [startIndex]. *)
Lemma findStartNode_spec (nodes : list str) (idx off k : nat) :
  nodes <> [] -> off <= k <= off + length (concat nodes) ->
  exists i so,
    findStartNode nodes idx off k = Some (idx + i, so) /\
    i < length nodes /\ so <= length (nth i nodes []) /\
    off + length (concat (firstn i nodes)) + so = k /\
    forall j, j < i -> off + length (concat (firstn (S j) nodes)) < k.
Proof.
  revert idx off. induction nodes as [|n rest IH]; intros idx off Hne Hk;
    [congruence|].
  cbn [findStartNode]. cbn zeta.
  destruct (Nat.leb_spec k (off + length n)) as [Hle|Hgt].
  - exists 0, (k - off). rewrite Nat.add_0_r. simpl.
    repeat split; try lia.
  - simpl in Hk. rewrite length_app in Hk.
    assert (Hr : rest <> []).
    { intros ->. simpl in Hk. lia. }
    destruct (IH (S idx) (off + length n) Hr ltac:(lia))
      as (i & so & Hf & Hi & Hso & Hlen & Hfirst).
    exists (S i), so. rewrite Hf. simpl.
    repeat split; try lia.
    + f_equal. f_equal. lia.
    + rewrite length_app. lia.
    + intros [|j] Hj.
      * simpl. rewrite app_nil_r. lia.
      * specialize (Hfirst j ltac:(lia)). rewrite length_app. lia.
Qed.

Lemma textBefore_prefix (nodes : list str) (b : Boundary) :
  textBefore nodes b = firstn (length (textBefore nodes b)) (concat nodes).
Proof. rewrite <- (text_split nodes b). now rewrite firstn_app_exact. Qed.

Lemma firstn_prefix_of (nodes : list str) (b : Boundary) (k : nat) :
  k <= length (textBefore nodes b) ->
  firstn k (textBefore nodes b) = firstn k (concat nodes).
Proof.
  intros H. rewrite (textBefore_prefix nodes b) at 1.
  rewrite firstn_firstn. f_equal. lia.
Qed.

Lemma firstn_app_at {A} (a b : list A) (n : nat) :
  firstn (length a + n) (a ++ b) = a ++ firstn n b.
Proof.
  rewrite firstn_app, firstn_all2 by lia. f_equal. f_equal. lia.
Qed.

(** Deleting from the start found by the walker to the end of the
    range and inserting the full text, on the text of the region. *)
Lemma spliceRange_text (nodes : list str) (i so k : nat) (b : Boundary)
    (full : str) :
  i < length nodes -> so <= length (nth i nodes []) ->
  valid_boundary nodes b ->
  length (concat (firstn i nodes)) + so = k ->
  k <= length (textBefore nodes b) ->
  (forall j, j < i -> length (concat (firstn (S j) nodes)) < k) ->
  let nodes' := fst (spliceRange nodes i so b full) in
  let inserted := snd (spliceRange nodes i so b full) in
  concat nodes'
  = firstn k (textBefore nodes b) ++ full ++ textAfter nodes b /\
  concat (firstn (S inserted) nodes')
  = firstn k (textBefore nodes b) ++ full.
Proof.
  intros Hi Hso Hb Hk Hle Hfirst. cbn zeta.
  assert (Hstart : textBefore nodes (InText i so) = firstn k (concat nodes)).
  { rewrite (textBefore_prefix nodes (InText i so)). f_equal.
    simpl. rewrite length_app, length_firstn. lia. }
  rewrite (firstn_prefix_of nodes b k Hle), <- Hstart.
  assert (Hli : length (firstn i nodes) = i)
    by (rewrite length_firstn; lia).
  destruct b as [j eo|m]; simpl in Hb, Hle; unfold spliceRange.
  - destruct Hb as [Hj Heo].
    rewrite length_app, length_firstn in Hle.
    assert (Hij : i <= j).
    { destruct (Nat.le_gt_cases i j) as [H|H]; [exact H|].
      specialize (Hfirst j H). rewrite concat_firstn_S, length_app in Hfirst
        by exact Hj. lia. }
    assert (Ht : (i <? j) || ((i =? j) && (so <=? eo)) = true).
    { destruct (Nat.ltb_spec i j) as [H|H]; [reflexivity|].
      assert (i = j) by lia. subst j. rewrite Nat.eqb_refl. simpl.
      apply Nat.leb_le. lia. }
    rewrite Ht. cbn [fst snd textBefore textAfter]. split.
    + rewrite concat_app. cbn [concat app]. rewrite <- !app_assoc.
      reflexivity.
    + replace (S (S i)) with (length (firstn i nodes) + 2) by lia.
      rewrite firstn_app_at. cbn [firstn app]. rewrite concat_app.
      cbn [concat app]. now rewrite app_nil_r, <- !app_assoc.
  - destruct (Nat.ltb_spec i m) as [H|H];
      cbn [fst snd textBefore textAfter].
    + split.
      * rewrite concat_app. cbn [concat app]. rewrite <- !app_assoc.
        reflexivity.
      * replace (S (S i)) with (length (firstn i nodes) + 2) by lia.
        rewrite firstn_app_at. cbn [firstn app]. rewrite concat_app.
        cbn [concat app]. now rewrite app_nil_r, <- !app_assoc.
    + assert (m = 0).
      { destruct m as [|m']; [reflexivity|].
        specialize (Hfirst m' ltac:(lia)). lia. }
      subst m. simpl in Hle. assert (k = 0) by lia. subst k.
      assert (i = 0 /\ so = 0) as [-> ->].
      { destruct i as [|i']; [lia|].
        specialize (Hfirst 0 ltac:(lia)). lia. }
      simpl. rewrite app_nil_r. split; reflexivity.
Qed.

Lemma acceptSuggestion_region (now now' : Z) (w : World)
    (r : ResponseRecord) (b : Boundary) (i so : nat) :
  is_contenteditable (element w) = true ->
  currentSuggestion w = Some r ->
  selection w = Some b ->
  findStartNode (textNodes (element w)) 0 0
    (match lastIndexOf (textBefore (textNodes (element w)) b) space with
     | Some lastSpaceIndex => lastSpaceIndex + 1
     | None => 0
     end) = Some (i, so) ->
  let w' := acceptSuggestion now now' w in
  let sp := spliceRange (textNodes (element w)) i so b (suggestionText r) in
  contenteditable (element w') = contenteditable (element w) /\
  textNodes (element w') = fst sp /\
  selection w' = Some (InElement (S (snd sp))).
Proof.
  intros Hc Hr Hs Hf. cbn zeta. unfold acceptSuggestion. rewrite Hr.
  cbn zeta. cbn [element set_suppressedUntil]. rewrite Hc.
  destruct (clearSuggestion_frame
              (replaceInContentEditable (suggestionText r)
                 (getCurrentText (set_suppressedUntil (now + 500) w)) now'
                 (set_suppressedUntil (now + 500) w)))
    as (F1 & F2 & _).
  rewrite F1, F2. unfold replaceInContentEditable.
  cbn [selection element set_suppressedUntil]. rewrite Hs. cbn zeta.
  rewrite Hf.
  destruct (spliceRange (textNodes (element w)) i so b (suggestionText r))
    as [nodes' inserted].
  rewrite (proj1 (dispatchInput_page _ _)), (proj2 (dispatchInput_page _ _)).
  repeat split.
Qed.

(** The text written by a commit in a region, by the walker and the
    range of [replaceInContentEditable]. *)
Lemma region_commit_text (now now' : Z) (w : World) (r : ResponseRecord)
    (b : Boundary) :
  is_contenteditable (element w) = true ->
  currentSuggestion w = Some r ->
  selection w = Some b ->
  valid_boundary (textNodes (element w)) b ->
  textNodes (element w) <> [] ->
  let w' := handleKeydown (lit "Tab") now now' w in
  exists pre word,
    caretText w = Some (pre ++ word) /\
    ~ In space word /\
    (pre = [] \/ exists p, pre = p ++ [space]) /\
    editableText w' = pre ++ suggestionText r ++ textAfterCaret w /\
    caretText w' = Some (pre ++ suggestionText r).
Proof.
  intros Hc Hr Hs Hb Hne. cbn zeta.
  assert (Hsome : isSome (currentSuggestion w) = true) by now rewrite Hr.
  rewrite handleKeydown_Tab by exact Hsome.
  set (nodes := textNodes (element w)) in *.
  set (t := textBefore nodes b).
  destruct (startIndex_spec t) as (pre & word & Ht & Hlen & Hw & Hpre).
  set (k := match lastIndexOf t space with
            | Some i => i + 1
            | None => 0
            end) in *.
  assert (Hk : k <= length t).
  { rewrite Ht, length_app. lia. }
  assert (Hkc : 0 <= k <= 0 + length (concat nodes)).
  { rewrite <- (text_split nodes b), length_app. fold t. lia. }
  destruct (findStartNode_spec nodes 0 0 k Hne Hkc)
    as (i & so & Hf & Hi & Hso & Hsum & Hfirst).
  simpl in Hf, Hsum, Hfirst.
  destruct (acceptSuggestion_region now now' w r b i so Hc Hr Hs Hf)
    as (Hce & Hnodes & Hsel).
  destruct (spliceRange_text nodes i so k b (suggestionText r)
              Hi Hso Hb Hsum Hk Hfirst) as (Htext & Hcaret).
  fold t in Htext, Hcaret.
  assert (Hfk : firstn k t = pre).
  { rewrite Ht, <- Hlen. apply firstn_app_exact. }
  rewrite Hfk in Htext, Hcaret.
  exists pre, word.
  unfold caretText, editableText, textAfterCaret, is_contenteditable.
  rewrite Hce. unfold is_contenteditable in Hc. rewrite Hc, Hs, Hsel, Hnodes.
  fold nodes. fold t. rewrite Ht at 1.
  repeat split; try assumption.
  cbn [textBefore]. now rewrite Hcaret.
Qed.

(** X1.  What a commit does in a text field whose value and whose
    suggestion text have no line break that the field does not keep (no
    carriage return, and no line feed in a single-line input): the run
    behind the last space or line break before the caret is replaced by
    the full text; the text before that run and the text after the
    caret stay, and the caret is put behind the full text. *)
Theorem commit_in_field (now now' : Z) (w : World) (r : ResponseRecord) :
  native (element w) ->
  currentSuggestion w = Some r ->
  selectionStart (element w) <= length (value (element w)) ->
  storable (element w) (value (element w)) ->
  storable (element w) (suggestionText r) ->
  let w' := handleKeydown (lit "Tab") now now' w in
  exists pre word,
    caretText w = Some (pre ++ word) /\
    ~ In space word /\ ~ In newline word /\
    (pre = [] \/ exists p c, pre = p ++ [c] /\ (c = space \/ c = newline)) /\
    editableText w' = pre ++ suggestionText r ++ textAfterCaret w /\
    caretText w' = Some (pre ++ suggestionText r).
Proof. exact (field_commit_text now now' w r). Qed.

Lemma commit_in_field_witness :
  let w := suggested_in_textarea in
  let w' := handleKeydown (lit "Tab") 20 20 w in
  (storable (element w) (value (element w)) /\
   storable (element w) (suggestionText thanks)) /\
  exists pre word,
    caretText w = Some (pre ++ word) /\
    ~ In space word /\ ~ In newline word /\
    (pre = [] \/ exists p c, pre = p ++ [c] /\ (c = space \/ c = newline)) /\
    editableText w' = pre ++ suggestionText thanks ++ textAfterCaret w /\
    caretText w' = Some (pre ++ suggestionText thanks).
Proof.
  cbn zeta.
  assert (H1 : native (element suggested_in_textarea)) by (split; reflexivity).
  assert (H2 : selectionStart (element suggested_in_textarea)
               <= length (value (element suggested_in_textarea)))
    by (simpl; lia).
  assert (H3 : storable (element suggested_in_textarea)
                 (value (element suggested_in_textarea)))
    by (apply storableb_spec; reflexivity).
  assert (H4 : storable (element suggested_in_textarea)
                 (suggestionText thanks))
    by (apply storableb_spec; reflexivity).
  split; [split; assumption|].
  exact (commit_in_field 20 20 suggested_in_textarea thanks H1 eq_refl H2
           H3 H4).
Defined.

(** X2.  What a commit does in a contenteditable region that holds a text
    node and whose selection ends inside it: the run behind the last
    space before the caret is replaced by the full text; the text
    before that run and the text after the caret stay, and the caret
    is put behind the full text. *)
Theorem commit_in_region (now now' : Z) (w : World) (r : ResponseRecord)
    (b : Boundary) :
  is_contenteditable (element w) = true ->
  currentSuggestion w = Some r ->
  selection w = Some b ->
  valid_boundary (textNodes (element w)) b ->
  textNodes (element w) <> [] ->
  let w' := handleKeydown (lit "Tab") now now' w in
  exists pre word,
    caretText w = Some (pre ++ word) /\
    ~ In space word /\
    (pre = [] \/ exists p, pre = p ++ [space]) /\
    editableText w' = pre ++ suggestionText r ++ textAfterCaret w /\
    caretText w' = Some (pre ++ suggestionText r).
Proof. exact (region_commit_text now now' w r b). Qed.

Lemma commit_in_region_witness :
  let w := suggested_in_region linkedin_com in
  let w' := handleKeydown (lit "Tab") 20 20 w in
  exists pre word,
    caretText w = Some (pre ++ word) /\
    ~ In space word /\
    (pre = [] \/ exists p, pre = p ++ [space]) /\
    editableText w' = pre ++ suggestionText thanks ++ textAfterCaret w /\
    caretText w' = Some (pre ++ suggestionText thanks).
Proof.
  cbn zeta.
  assert (H1 : valid_boundary
                 (textNodes (element (suggested_in_region linkedin_com)))
                 (InText 0 5)) by (simpl; lia).
  assert (H2 : textNodes (element (suggested_in_region linkedin_com)) <> [])
    by discriminate.
  exact (commit_in_region 20 20 (suggested_in_region linkedin_com) thanks
           (InText 0 5) eq_refl eq_refl eq_refl H1 H2).
Defined.

End CommitText.

(** ** Committing by Tab (claims C1 and C3) *)

Section Commit.

(** C3, as the code has it.  With "Thank yo" in the editable the
    current word is "yo", which the record "Thank you for connecting!"
    does not start with: no suggestion becomes active and Tab changes
    nothing.  With "Thank" in the editable (caret at the end) the record
    becomes the active suggestion, and Tab yields exactly
    "Thank you for connecting!" with the caret at the end; in a text
    field and in a contenteditable region alike. *)
Theorem C3_thank_scenario :
  let full := lit "Thank you for connecting!" in
  let typed_field t := create (textarea t (length t)) None in
  let typed_region t :=
    create (editable [t]) (Some (InText 0 (length t))) in
  let input := handleInput 10 linkedin_com (Some [thanks]) in
  let tab := handleKeydown (lit "Tab") 20 20 in
  (getCurrentText (typed_field (lit "Thank yo")) = lit "yo" /\
   currentSuggestion (input (typed_field (lit "Thank yo"))) = None /\
   getCurrentText (typed_region (lit "Thank yo")) = lit "yo" /\
   currentSuggestion (input (typed_region (lit "Thank yo"))) = None) /\
  (currentSuggestion (input (typed_field (lit "Thank"))) = Some thanks /\
   editableText (tab (input (typed_field (lit "Thank")))) = full /\
   selectionStart (element (tab (input (typed_field (lit "Thank")))))
   = length full) /\
  (currentSuggestion (input (typed_region (lit "Thank"))) = Some thanks /\
   editableText (tab (input (typed_region (lit "Thank")))) = full /\
   caretText (tab (input (typed_region (lit "Thank")))) = Some full /\
   textAfterCaret (tab (input (typed_region (lit "Thank")))) = []).
Proof. cbn zeta. repeat split; reflexivity. Qed.

(** C3 as written fails: after "Thank yo" has been typed, no
    suggestion is active for the record, and Tab leaves the text
    "Thank yo". *)
Lemma C3_thank_yo_counterexample :
  let w := handleInput 10 linkedin_com (Some [thanks])
             (create (editable [lit "Thank yo"]) (Some (InText 0 8))) in
  getCurrentText w = lit "yo" /\
  currentSuggestion w = None /\
  editableText (handleKeydown (lit "Tab") 20 20 w) = lit "Thank yo" /\
  editableText (handleKeydown (lit "Tab") 20 20 w)
  <> lit "Thank you for connecting!".
Proof. cbn zeta. repeat split; try reflexivity. discriminate. Qed.

(** C1 at failing inputs.  After "Thank" and a space the current word
    is still "Thank" and the suggestion is active, but the replacement
    starts behind the space: Tab yields "Thank Thank you for
    connecting!", in a text field and in a region.  After a line break
    the text field keeps the line before the word, the region loses
    it. *)
Theorem C1_commit_misses_word_start :
  let full := lit "Thank you for connecting!" in
  let input := handleInput 10 linkedin_com (Some [thanks]) in
  let tab := handleKeydown (lit "Tab") 20 20 in
  let field := input (create (textarea (lit "Thank ") 6) None) in
  let region :=
    input (create (editable [lit "Thank "]) (Some (InText 0 6))) in
  let two_lines := lit "ok" ++ [newline] ++ lit "Thank" in
  let field2 := input (create (textarea two_lines 8) None) in
  let region2 :=
    input (create (editable [two_lines]) (Some (InText 0 8))) in
  (getCurrentText field = lit "Thank" /\
   currentSuggestion field = Some thanks /\
   editableText (tab field) = lit "Thank " ++ full) /\
  (getCurrentText region = lit "Thank" /\
   currentSuggestion region = Some thanks /\
   editableText (tab region) = lit "Thank " ++ full) /\
  (getCurrentText field2 = lit "Thank" /\
   currentSuggestion field2 = Some thanks /\
   editableText (tab field2) = lit "ok" ++ [newline] ++ full) /\
  (getCurrentText region2 = lit "Thank" /\
   currentSuggestion region2 = Some thanks /\
   editableText (tab region2) = full).
Proof. cbn zeta. repeat split; reflexivity. Qed.

End Commit.

(** ** Strategy B and the container edge (claim C7) *)

Section StrategyB.

(** What the code of Strategy B does with the width it reads: when the
    measured node reaches past the right edge less 5 px and at most 50
    px are available, the node is removed and not appended. *)
Lemma positionTwitterOverlay_no_room (env : Env) (o : Overlay) (w : World)
    (b : Boundary) :
  selection w = Some b ->
  let left := (rright (rangeRect env) + 1)%Q in
  let right := rright (containerRect env) in
  Qlt_bool (right - 5)%Q (left + offsetWidth env w o)%Q = true ->
  Qlt_bool 50 (right - left - 10)%Q = false ->
  body (positionTwitterOverlay env o w) = removeNode (oid o) (body w).
Proof.
  intros Hs. cbn zeta. intros H1 H2. unfold positionTwitterOverlay.
  rewrite Hs. cbn zeta. rewrite H1.
  assert (H3 : Qlt_bool 100
                 (rright (containerRect env) - (rright (rangeRect env) + 1)
                  - 10)%Q = false).
  { unfold Qlt_bool in *. apply negb_false_iff in H2. apply negb_false_iff.
    rewrite Qle_bool_iff in *.
    eapply Qle_trans; [exact H2|]. discriminate. }
  rewrite H3, H2. reflexivity.
Qed.

(** The node that [createGhostElement] hands to Strategy B has just
    been created and is not in the document: the width read is 0,
    whatever width the text would have when rendered, and the node is
    appended unless the caret is less than 6 px from the right edge. *)
Lemma createGhostElement_twitter_body (env : Env) (text cur full : str)
    (w : World) (b : Boundary) :
  overlay_inv w ->
  is_contenteditable (element w) = true ->
  selection w = Some b ->
  let left := (rright (rangeRect env) + 1)%Q in
  let right := rright (containerRect env) in
  Qlt_bool (right - 5)%Q (left + 0)%Q = false ->
  exists o,
    body (createGhostElement env text cur full twitter w) = [o] /\
    otext o = text /\ oleft o = Some left /\ omaxWidth o = Some 300%Q.
Proof.
  intros Hi Hc Hs. cbn zeta. intros H. unfold createGhostElement.
  pose proof (clearGhostElement_body w Hi) as Hb.
  destruct (clearGhostElement_frame w) as (F1 & F2 & _).
  rewrite F1, Hc. cbn zeta. cbn [body set_ghostElement].
  unfold positionTwitterOverlay.
  cbn [selection set_next_id]. rewrite F2, Hs. cbn zeta.
  unfold offsetWidth. cbn [body set_next_id oid]. rewrite Hb.
  cbn [inDocument existsb]. rewrite H.
  cbn [body set_body appendChild removeNode filter app omaxWidth].
  eexists. repeat split.
Qed.

(** C7 at a failing input.  On x.com the caret is 31 px before the
    right edge of the region, so 25 px are free before the edge less
    5 px and 20 px are available, fewer than the 50 px that count as
    usable; the remainder " you for connecting!" is 200 px wide when
    rendered.  The overlay is appended nevertheless, at the caret, with
    the width limit of the style sheet text. *)
Theorem C7_wide_remainder_is_rendered :
  let env := x_com_wide in
  let w := suggested_in_region env in
  let left := (rright (rangeRect env) + 1)%Q in
  let right := rright (containerRect env) in
  (forall o, Qlt_bool (right - 5)%Q (left + layoutWidth env o)%Q = true) /\
  Qlt_bool 50 (right - left - 10)%Q = false /\
  exists o,
    body w = [o] /\ ghostElement w = Some (oid o) /\
    otext o = lit " you for connecting!" /\
    oleft o = Some 470%Q /\ omaxWidth o = Some 300%Q.
Proof.
  cbn zeta. split; [intros o; reflexivity|]. split; [reflexivity|].
  eexists. repeat split.
Qed.

End StrategyB.

(** ** Unicode text formatting *)

Section TextFormatting.

Import Formatter.
Local Open Scope N_scope.

Lemma indexOf_arith (b : N) (n s : nat) (c : N) :
  indexOf (map (fromCodePoint b) (seq s n)) c
  = if (b + N.of_nat s <=? c) && (c <? b + N.of_nat s + N.of_nat n)
    then option_map (fun i => (i - s)%nat) (Some (N.to_nat (c - b)))
    else None.
Proof.
  revert s. induction n as [|n IH]; intros s; simpl.
  - destruct (N.leb_spec (b + N.of_nat s) c), (N.ltb_spec c (b + N.of_nat s + 0));
      simpl; try reflexivity; lia.
  - unfold fromCodePoint at 1. destruct (N.eqb_spec (b + N.of_nat s) c) as [E|E].
    + subst c.
      destruct (N.leb_spec (b + N.of_nat s) (b + N.of_nat s)); [|lia].
      destruct (N.ltb_spec (b + N.of_nat s)
                  (b + N.of_nat s + N.pos (Pos.of_succ_nat n))); [|lia].
      simpl. f_equal. lia.
    + rewrite IH.
      destruct (N.leb_spec (b + N.of_nat (S s)) c),
               (N.ltb_spec c (b + N.of_nat (S s) + N.of_nat n)),
               (N.leb_spec (b + N.of_nat s) c),
               (N.ltb_spec c (b + N.of_nat s + N.pos (Pos.of_succ_nat n)));
        simpl; try reflexivity; try lia.
      f_equal. lia.
Qed.

Lemma indexOf_table (b : N) (n : nat) (c : N) :
  indexOf (arrayFrom n (fromCodePoint b)) c
  = if within b (b + N.of_nat n - 1) c && negb (n =? 0)%nat
    then Some (N.to_nat (c - b)) else None.
Proof.
  unfold arrayFrom. rewrite indexOf_arith. unfold within. simpl.
  rewrite N.add_0_r.
  destruct n as [|n]; simpl.
  - rewrite andb_false_r.
    destruct (N.leb_spec b c), (N.ltb_spec c (b + 0)); simpl;
      try reflexivity; lia.
  - rewrite andb_true_r.
    destruct (N.leb_spec b c),
             (N.ltb_spec c (b + N.pos (Pos.of_succ_nat n))),
             (N.leb_spec c (b + N.pos (Pos.of_succ_nat n) - 1));
      simpl; try reflexivity; try lia.
    f_equal. lia.
Qed.

Lemma nth_arrayFrom {A} (n i : nat) (f : nat -> A) (d : A) :
  (i < n)%nat -> nth i (arrayFrom n f) d = f i.
Proof.
  intros H. unfold arrayFrom.
  rewrite (nth_indep _ d (f 0%nat)) by (rewrite length_map, length_seq; lia).
  rewrite map_nth, seq_nth by lia. reflexivity.
Qed.

Lemma REGULAR_tables :
  upper REGULAR = arrayFrom 26 (fromCodePoint 65) /\
  lower REGULAR = arrayFrom 26 (fromCodePoint 97) /\
  numbers REGULAR = arrayFrom 10 (fromCodePoint 48).
Proof. repeat split. Qed.

(** The loop body of [transformText] by character class. *)
Lemma transformChar_spec (m : Mapping) (c : N) :
  transformChar m c
  = if isUpper c then nth (N.to_nat (c - 65)) (upper m) c
    else if isLower c then nth (N.to_nat (c - 97)) (lower m) c
    else if isDigit c then nth (N.to_nat (c - 48)) (numbers m) c
    else c.
Proof.
  unfold transformChar.
  destruct REGULAR_tables as (-> & -> & ->).
  rewrite !indexOf_table. unfold isUpper, isLower, isDigit. simpl.
  rewrite !andb_true_r.
  destruct (within 65 90 c); [reflexivity|].
  destruct (within 97 122 c); [reflexivity|].
  destruct (within 48 57 c); reflexivity.
Qed.

Lemma within_iff (lo hi c : N) : within lo hi c = true <-> lo <= c <= hi.
Proof.
  unfold within. rewrite andb_true_iff, N.leb_le, N.leb_le. tauto.
Qed.

Lemma within_true (lo hi c : N) : lo <= c <= hi -> within lo hi c = true.
Proof. apply within_iff. Qed.

Lemma within_false (lo hi c : N) : c < lo \/ hi < c -> within lo hi c = false.
Proof.
  intros H. destruct (within lo hi c) eqn:E; [|reflexivity].
  apply within_iff in E. lia.
Qed.

Lemma within_cases (lo hi c : N) :
  (within lo hi c = true /\ lo <= c <= hi) \/
  (within lo hi c = false /\ (c < lo \/ hi < c)).
Proof.
  destruct (within lo hi c) eqn:E.
  - left. split; [reflexivity|]. now apply within_iff.
  - right. split; [reflexivity|].
    unfold within in E. apply andb_false_iff in E as [E|E];
      apply N.leb_gt in E; lia.
Qed.

Lemma eqb_false (a b : N) : a <> b -> (a =? b) = false.
Proof. apply N.eqb_neq. Qed.

Ltac range :=
  repeat first
    [ rewrite within_true by lia
    | rewrite within_false by lia
    | rewrite N.eqb_refl
    | rewrite eqb_false by (unfold planck_h; lia) ];
  cbn [negb andb orb].

Lemma nth_table (b base : N) (n : nat) (c d : N) :
  base <= c -> (c - base < N.of_nat n) ->
  nth (N.to_nat (c - base)) (arrayFrom n (fromCodePoint b)) d
  = b + (c - base).
Proof.
  intros H1 H2. rewrite nth_arrayFrom by lia.
  unfold fromCodePoint. lia.
Qed.

(** What each style does to a character. *)
Lemma transformChar_bold (c : N) :
  transformChar bold c
  = if isUpper c then 0x1d400 + (c - 65)
    else if isLower c then 0x1d41a + (c - 97)
    else if isDigit c then 0x1d7ce + (c - 48)
    else c.
Proof.
  rewrite transformChar_spec. unfold isUpper, isLower, isDigit.
  destruct (within_cases 65 90 c) as [[-> H]|[-> _]];
    [apply nth_table; simpl; lia|].
  destruct (within_cases 97 122 c) as [[-> H]|[-> _]];
    [apply nth_table; simpl; lia|].
  destruct (within_cases 48 57 c) as [[-> H]|[-> _]];
    [apply nth_table; simpl; lia | reflexivity].
Qed.

Lemma transformChar_boldItalic (c : N) :
  transformChar boldItalic c
  = if isUpper c then 0x1d468 + (c - 65)
    else if isLower c then 0x1d482 + (c - 97)
    else if isDigit c then 0x1d7ce + (c - 48)
    else c.
Proof.
  rewrite transformChar_spec. unfold isUpper, isLower, isDigit.
  destruct (within_cases 65 90 c) as [[-> H]|[-> _]];
    [apply nth_table; simpl; lia|].
  destruct (within_cases 97 122 c) as [[-> H]|[-> _]];
    [apply nth_table; simpl; lia|].
  destruct (within_cases 48 57 c) as [[-> H]|[-> _]];
    [apply nth_table; simpl; lia | reflexivity].
Qed.

Lemma transformChar_italic (c : N) :
  transformChar italic c
  = if isUpper c then 0x1d434 + (c - 65)
    else if isLower c then
           if c =? 104 then planck_h else 0x1d44e + (c - 97)
    else c.
Proof.
  rewrite transformChar_spec. unfold isUpper, isLower, isDigit.
  destruct (within_cases 65 90 c) as [[-> H]|[-> _]];
    [apply nth_table; simpl; lia|].
  destruct (within_cases 97 122 c) as [[-> H]|[-> _]].
  - cbn [lower italic]. rewrite nth_arrayFrom by lia.
    destruct (N.eqb_spec c 104) as [->|E]; [reflexivity|].
    destruct (Nat.eqb_spec (N.to_nat (c - 97)) 7) as [E'|_]; [lia|].
    unfold fromCodePoint. lia.
  - destruct (within_cases 48 57 c) as [[-> H]|[-> _]]; [|reflexivity].
    cbn [numbers italic]. rewrite nth_table by (simpl; lia). lia.
Qed.

Lemma regularAt_table (table : ustr) (b base : N) (n : nat) (c : N) :
  table = arrayFrom n (fromCodePoint b) ->
  base <= c -> c - base < N.of_nat n ->
  regularAt table c base = b + (c - base).
Proof. intros -> H1 H2. unfold regularAt. now apply nth_table. Qed.

(** [toRegular] on one character of each styled range. *)
Lemma regularChar_styled (c : N) :
  regularChar c
  = if within 0x1d400 0x1d419 c then 65 + (c - 0x1d400)
    else if within 0x1d41a 0x1d433 c then 97 + (c - 0x1d41a)
    else if within 0x1d7ce 0x1d7d7 c then 48 + (c - 0x1d7ce)
    else if within 0x1d434 0x1d44d c then 65 + (c - 0x1d434)
    else if within 0x1d44e 0x1d467 c then 97 + (c - 0x1d44e)
    else if within 0x1d468 0x1d481 c then 65 + (c - 0x1d468)
    else if within 0x1d482 0x1d49b c then 97 + (c - 0x1d482)
    else c.
Proof.
  destruct REGULAR_tables as (U & L & D).
  unfold regularChar, unicodeToRegular. cbn zeta.
  destruct (N.eqb_spec c 0) as [->|E0]; [reflexivity|].
  destruct (within_cases 0x1d400 0x1d419 c) as [[-> H]|[-> H1]].
  { range. apply (regularAt_table _ 65 _ 26 _ U); simpl; lia. }
  destruct (within_cases 0x1d41a 0x1d433 c) as [[-> H]|[-> H2]].
  { range. apply (regularAt_table _ 97 _ 26 _ L); simpl; lia. }
  destruct (within_cases 0x1d7ce 0x1d7d7 c) as [[-> H]|[-> H3]].
  { range. apply (regularAt_table _ 48 _ 10 _ D); simpl; lia. }
  destruct (within_cases 0x1d434 0x1d44d c) as [[-> H]|[-> H4]].
  { range. apply (regularAt_table _ 65 _ 26 _ U); simpl; lia. }
  destruct (within_cases 0x1d44e 0x1d467 c) as [[-> H]|[-> H5]].
  { range. apply (regularAt_table _ 97 _ 26 _ L); simpl; lia. }
  destruct (within_cases 0x1d468 0x1d481 c) as [[-> H]|[-> H6]].
  { range. apply (regularAt_table _ 65 _ 26 _ U); simpl; lia. }
  destruct (within_cases 0x1d482 0x1d49b c) as [[-> H]|[-> H7]].
  { range. apply (regularAt_table _ 97 _ 26 _ L); simpl; lia. }
  destruct (within_cases 0x1d400 0x1d7ff c) as [[-> H]|[-> H8]];
    [|reflexivity].
  destruct (N.eqb_spec c planck_h) as [->|_]; [|reflexivity].
  unfold planck_h in H. lia.
Qed.

Lemma not_math (c : N) :
  isMathAlnum c = false -> c = 0 \/ c < 0x1d400 \/ 0x1d7ff < c.
Proof.
  unfold isMathAlnum. intros H.
  destruct (N.eqb_spec c 0) as [E|E]; [now left|]. right.
  simpl in H. destruct (within_cases 0x1d400 0x1d7ff c) as [[E' _]|[_ H']];
    [congruence | exact H'].
Qed.

Lemma hasFormatting_false (s : ustr) :
  hasFormatting s = false -> forall c, In c s -> isMathAlnum c = false.
Proof.
  unfold hasFormatting. intros H c Hc.
  destruct (isMathAlnum c) eqn:E; [|reflexivity].
  assert (existsb isMathAlnum s = true)
    by (apply existsb_exists; now exists c).
  congruence.
Qed.

Ltac classes x :=
  unfold isUpper, isLower, isDigit;
  let E := fresh "E" in
  destruct (within_cases 65 90 x) as [[E ?]|[E ?]]; rewrite E; clear E;
  [|destruct (within_cases 97 122 x) as [[E ?]|[E ?]]; rewrite E; clear E;
    [|destruct (within_cases 48 57 x) as [[E ?]|[E ?]]; rewrite E; clear E]].

Lemma regular_bold_char (c : N) :
  isMathAlnum c = false -> regularChar (transformChar bold c) = c.
Proof.
  intros H. apply not_math in H.
  rewrite transformChar_bold, regularChar_styled.
  classes c; range; lia.
Qed.

Lemma regular_boldItalic_char (c : N) :
  isMathAlnum c = false -> regularChar (transformChar boldItalic c) = c.
Proof.
  intros H. apply not_math in H.
  rewrite transformChar_boldItalic, regularChar_styled.
  classes c; range; lia.
Qed.

Lemma regular_italic_char (c : N) :
  isMathAlnum c = false ->
  regularChar (transformChar italic c) = if c =? 104 then planck_h else c.
Proof.
  intros H. apply not_math in H.
  rewrite transformChar_italic, regularChar_styled.
  unfold isUpper, isLower.
  destruct (within_cases 65 90 c) as [[-> ?]|[-> ?]];
    [range; lia|].
  destruct (within_cases 97 122 c) as [[-> ?]|[-> ?]].
  - destruct (N.eqb_spec c 104) as [->|E]; unfold planck_h; range;
      [reflexivity | lia].
  - range. lia.
Qed.

(** X9.  Clearing the formatting undoes bold and bold italic: on a text
    that holds no code point of U+1D400..U+1D7FF, [toRegular] after
    [toBold] or [toBoldItalic] gives the text back. *)
Theorem toRegular_undoes_bold (s : ustr) :
  hasFormatting s = false ->
  toRegular (toBold s) = s /\ toRegular (toBoldItalic s) = s.
Proof.
  intros H. pose proof (hasFormatting_false s H) as Hc.
  unfold toRegular, toBold, toBoldItalic, transformText.
  rewrite !map_map. split.
  - rewrite <- (map_id s) at 2. apply map_ext_in.
    intros c Hin. apply regular_bold_char. now apply Hc.
  - rewrite <- (map_id s) at 2. apply map_ext_in.
    intros c Hin. apply regular_boldItalic_char. now apply Hc.
Qed.

Lemma toRegular_undoes_bold_witness :
  let s := codepoints "Hello, World 42!" in
  hasFormatting s = false /\
  toRegular (toBold s) = s /\ toRegular (toBoldItalic s) = s.
Proof.
  cbn zeta. split; [reflexivity|].
  exact (toRegular_undoes_bold (codepoints "Hello, World 42!") eq_refl).
Defined.

(** X10.  Clearing the formatting does not undo the italic h: [toItalic]
    writes U+210E for h, which lies outside the range that [toRegular]
    converts; every other character comes back. *)
Theorem toRegular_keeps_italic_h (s : ustr) :
  hasFormatting s = false ->
  toRegular (toItalic s) = map (fun c => if c =? 104 then planck_h else c) s.
Proof.
  intros H. pose proof (hasFormatting_false s H) as Hc.
  unfold toRegular, toItalic, transformText. rewrite map_map.
  apply map_ext_in. intros c Hin. apply regular_italic_char. now apply Hc.
Qed.

Lemma toRegular_keeps_italic_h_witness :
  let s := codepoints "The chat 7" in
  hasFormatting s = false /\
  toRegular (toItalic s) = map (fun c => if c =? 104 then planck_h else c) s /\
  toRegular (toItalic s) <> s.
Proof.
  cbn zeta. split; [reflexivity|].
  split; [exact (toRegular_keeps_italic_h (codepoints "The chat 7") eq_refl)|].
  discriminate.
Defined.

Lemma transformChar_other (m : Mapping) (c : N) :
  isAlnum c = false -> transformChar m c = c.
Proof.
  unfold isAlnum. intros H. rewrite transformChar_spec.
  apply orb_false_iff in H as [H H3]. apply orb_false_iff in H as [H1 H2].
  now rewrite H1, H2, H3.
Qed.

Lemma bold_not_alnum (c : N) : isAlnum (transformChar bold c) = false.
Proof.
  rewrite transformChar_bold. unfold isAlnum.
  classes c; unfold isUpper, isLower, isDigit; range; reflexivity.
Qed.

Lemma boldItalic_not_alnum (c : N) :
  isAlnum (transformChar boldItalic c) = false.
Proof.
  rewrite transformChar_boldItalic. unfold isAlnum.
  classes c; unfold isUpper, isLower, isDigit; range; reflexivity.
Qed.

Lemma italic_twice_char (c : N) :
  transformChar italic (transformChar italic c) = transformChar italic c.
Proof.
  rewrite (transformChar_italic c). unfold isUpper, isLower.
  destruct (within_cases 65 90 c) as [[E ?]|[E ?]]; rewrite E; clear E.
  - rewrite transformChar_italic. unfold isUpper, isLower. range. reflexivity.
  - destruct (within_cases 97 122 c) as [[E ?]|[E ?]]; rewrite E; clear E.
    + rewrite transformChar_italic. unfold isUpper, isLower.
      destruct (N.eqb_spec c 104); unfold planck_h; range; reflexivity.
    + rewrite transformChar_italic. unfold isUpper, isLower. range.
      reflexivity.
Qed.

(** X11.  Styling a styled text again does nothing to it: a bold or bold
    italic text is left as it is by each of the three styles, and
    [toItalic] is idempotent.  To change the style the formatting has
    to be cleared first. *)
Theorem restyling_changes_nothing (m : Mapping) (s : ustr) :
  transformText (toBold s) m = toBold s /\
  transformText (toBoldItalic s) m = toBoldItalic s /\
  toItalic (toItalic s) = toItalic s.
Proof.
  unfold toBold, toBoldItalic, toItalic, transformText.
  rewrite !map_map. repeat split; apply map_ext; intros c.
  - apply transformChar_other, bold_not_alnum.
  - apply transformChar_other, boldItalic_not_alnum.
  - apply italic_twice_char.
Qed.

Lemma isMathAlnum_iff (c : N) :
  isMathAlnum c = within 0x1d400 0x1d7ff c.
Proof.
  unfold isMathAlnum.
  destruct (within_cases 0x1d400 0x1d7ff c) as [[-> H]|[-> H]].
  - rewrite eqb_false by lia. reflexivity.
  - now rewrite andb_false_r.
Qed.

Lemma math_bold_char (c : N) :
  isMathAlnum (transformChar bold c) = isMathAlnum c || isAlnum c.
Proof.
  rewrite !isMathAlnum_iff, transformChar_bold. unfold isAlnum.
  classes c; unfold isUpper, isLower, isDigit; range;
    rewrite ?orb_false_r; reflexivity.
Qed.

Lemma math_boldItalic_char (c : N) :
  isMathAlnum (transformChar boldItalic c) = isMathAlnum c || isAlnum c.
Proof.
  rewrite !isMathAlnum_iff, transformChar_boldItalic. unfold isAlnum.
  classes c; unfold isUpper, isLower, isDigit; range;
    rewrite ?orb_false_r; reflexivity.
Qed.

Lemma math_italic_char (c : N) :
  isMathAlnum (transformChar italic c) = isMathAlnum c || isItalicLetter c.
Proof.
  rewrite !isMathAlnum_iff, transformChar_italic. unfold isItalicLetter.
  unfold isUpper, isLower.
  destruct (within_cases 65 90 c) as [[E ?]|[E ?]]; rewrite E; clear E.
  - range. try rewrite eqb_false by lia. reflexivity.
  - destruct (within_cases 97 122 c) as [[E ?]|[E ?]]; rewrite E; clear E.
    + destruct (N.eqb_spec c 104); unfold planck_h; range;
        rewrite ?orb_false_r; reflexivity.
    + cbn [orb andb]. now rewrite orb_false_r.
Qed.

Lemma existsb_map_or {A} (f g h : A -> bool) (t : A -> A) (s : list A) :
  (forall c, f (t c) = g c || h c) ->
  existsb f (map t s) = existsb g s || existsb h s.
Proof.
  intros H. induction s as [|c s IH]; simpl; [reflexivity|].
  rewrite H, IH. destruct (g c), (h c), (existsb g s), (existsb h s);
    reflexivity.
Qed.

(** [hasFormatting] of a styled text, by the characters of the text. *)
Lemma hasFormatting_styled (s : ustr) :
  hasFormatting (toBold s) = hasFormatting s || existsb isAlnum s /\
  hasFormatting (toBoldItalic s) = hasFormatting s || existsb isAlnum s /\
  hasFormatting (toItalic s)
  = hasFormatting s || existsb isItalicLetter s.
Proof.
  unfold hasFormatting, toBold, toBoldItalic, toItalic, transformText.
  repeat split; apply existsb_map_or; intros c.
  - apply math_bold_char.
  - apply math_boldItalic_char.
  - apply math_italic_char.
Qed.

(** X12.  When styling makes [hasFormatting] true: a bold or bold italic
    text is recognised as formatted as soon as the text holds a letter
    or a digit; an italic text only when it holds a letter other than
    h, because the italic digits are the plain digits and the italic h
    is U+210E. *)
Theorem hasFormatting_after_styling (s : ustr) :
  hasFormatting (toBold s) = hasFormatting s || existsb isAlnum s /\
  hasFormatting (toBoldItalic s) = hasFormatting s || existsb isAlnum s /\
  hasFormatting (toItalic s)
  = hasFormatting s || existsb isItalicLetter s.
Proof. exact (hasFormatting_styled s). Qed.

Lemma regularChar_not_styled (c : N) : isStyled (regularChar c) = false.
Proof.
  rewrite regularChar_styled. unfold isStyled.
  destruct (within_cases 0x1d400 0x1d419 c) as [[E ?]|[E ?]]; rewrite E;
    clear E; [range; reflexivity|].
  destruct (within_cases 0x1d41a 0x1d433 c) as [[E ?]|[E ?]]; rewrite E;
    clear E; [range; reflexivity|].
  destruct (within_cases 0x1d7ce 0x1d7d7 c) as [[E ?]|[E ?]]; rewrite E;
    clear E; [range; reflexivity|].
  destruct (within_cases 0x1d434 0x1d44d c) as [[E ?]|[E ?]]; rewrite E;
    clear E; [range; reflexivity|].
  destruct (within_cases 0x1d44e 0x1d467 c) as [[E ?]|[E ?]]; rewrite E;
    clear E; [range; reflexivity|].
  destruct (within_cases 0x1d468 0x1d481 c) as [[E ?]|[E ?]]; rewrite E;
    clear E; [range; reflexivity|].
  destruct (within_cases 0x1d482 0x1d49b c) as [[E ?]|[E ?]]; rewrite E;
    clear E; range; reflexivity.
Qed.

Lemma regularChar_fixed (c : N) :
  isStyled c = false -> regularChar c = c.
Proof.
  unfold isStyled. intros H. apply orb_false_iff in H as [H1 H2].
  destruct (within_cases 0x1d400 0x1d49b c) as [[E ?]|[_ ?]]; [congruence|].
  destruct (within_cases 0x1d7ce 0x1d7d7 c) as [[E ?]|[_ ?]]; [congruence|].
  rewrite regularChar_styled. range. reflexivity.
Qed.

(** X13.  [toRegular] leaves no bold, italic or bold italic letter and no
    bold digit of U+1D400..U+1D49B and U+1D7CE..U+1D7D7 in the text,
    and clearing a cleared text changes nothing. *)
Theorem toRegular_clears_styles (s : ustr) :
  forallb (fun c => negb (isStyled c)) (toRegular s) = true /\
  toRegular (toRegular s) = toRegular s.
Proof.
  unfold toRegular. split.
  - apply forallb_forall. intros c Hc. apply in_map_iff in Hc as (x & <- & _).
    now rewrite regularChar_not_styled.
  - rewrite map_map. apply map_ext. intros c.
    apply regularChar_fixed, regularChar_not_styled.
Qed.

Lemma first_bold (c : N) (rest : ustr) :
  isMathAlnum c = false -> c <> planck_h ->
  firstFormatting (transformChar bold c :: rest)
  = if isAlnum c then Bold else firstFormatting rest.
Proof.
  intros H Hh. apply not_math in H.
  cbn [firstFormatting]. cbn zeta. rewrite transformChar_bold.
  unfold isAlnum. classes c; unfold isUpper, isLower, isDigit; range;
    try reflexivity.
  rewrite (eqb_false c planck_h) by assumption.
  destruct (N.eqb_spec c 0); reflexivity.
Qed.

Lemma first_boldItalic (c : N) (rest : ustr) :
  isMathAlnum c = false -> c <> planck_h ->
  firstFormatting (transformChar boldItalic c :: rest)
  = if isDigit c then Bold
    else if isUpper c || isLower c then BoldItalic
    else firstFormatting rest.
Proof.
  intros H Hh. apply not_math in H.
  cbn [firstFormatting]. cbn zeta. rewrite transformChar_boldItalic.
  classes c; unfold isUpper, isLower, isDigit; range; try reflexivity.
  rewrite (eqb_false c planck_h) by assumption.
  destruct (N.eqb_spec c 0); reflexivity.
Qed.

Lemma first_italic (c : N) (rest : ustr) :
  isMathAlnum c = false -> c <> planck_h ->
  firstFormatting (transformChar italic c :: rest)
  = if isUpper c || isLower c then Italic else firstFormatting rest.
Proof.
  intros H Hh. apply not_math in H.
  cbn [firstFormatting]. cbn zeta. rewrite transformChar_italic.
  unfold isUpper, isLower.
  destruct (within_cases 65 90 c) as [[E ?]|[E ?]]; rewrite E; clear E;
    [range; reflexivity|].
  destruct (within_cases 97 122 c) as [[E ?]|[E ?]]; rewrite E; clear E.
  - destruct (N.eqb_spec c 104); unfold planck_h; range; reflexivity.
  - cbn [orb]. range. rewrite (eqb_false c planck_h) by assumption.
    destruct (N.eqb_spec c 0); reflexivity.
Qed.

(** X14.  The formatting type reported for a styled plain text (no code
    point of U+1D400..U+1D7FF and no U+210E): bold for a bold text with
    a letter or digit; italic for an italic text with a letter other
    than h, and regular for one with only h and digits; for a bold
    italic text the first letter or digit decides, and a digit makes it
    bold, since the bold italic digits are the bold digits. *)
Theorem formatting_type_of_styled (s : ustr) :
  hasFormatting s = false ->
  existsb (N.eqb planck_h) s = false ->
  getFormattingType (toBold s)
  = (if existsb isAlnum s then Bold else Regular) /\
  getFormattingType (toItalic s)
  = (if existsb isItalicLetter s then Italic else Regular) /\
  getFormattingType (toBoldItalic s)
  = match find isAlnum s with
    | Some c => if isDigit c then Bold else BoldItalic
    | None => Regular
    end.
Proof.
  intros Hf Hh.
  destruct (hasFormatting_styled s) as (Hb & Hbi & Hi).
  unfold getFormattingType. rewrite Hb, Hbi, Hi, Hf. cbn [orb].
  pose proof (hasFormatting_false s Hf) as Hc.
  assert (Hp : forall c, In c s -> c <> planck_h).
  { intros c Hin ->.
    assert (existsb (N.eqb planck_h) s = true).
    { apply existsb_exists. exists planck_h. split; [assumption|].
      apply N.eqb_refl. }
    congruence. }
  clear Hb Hbi Hi Hf Hh.
  unfold toBold, toItalic, toBoldItalic, transformText.
  induction s as [|c s IH]; [repeat split|].
  assert (Hc1 : isMathAlnum c = false) by (apply Hc; now left).
  assert (Hp1 : c <> planck_h) by (apply Hp; now left).
  destruct IH as (I1 & I2 & I3);
    [intros x Hx; apply Hc; now right | intros x Hx; apply Hp; now right|].
  cbn [map existsb find].
  rewrite first_bold, first_boldItalic, first_italic by assumption.
  split; [|split].
  - destruct (isAlnum c); cbn [orb negb]; [reflexivity|].
    destruct (existsb isAlnum s); [|reflexivity]. exact I1.
  - destruct (isItalicLetter c || existsb isItalicLetter s) eqn:E;
      cbn [negb]; [|reflexivity].
    destruct (isUpper c || isLower c) eqn:El; [reflexivity|].
    unfold isItalicLetter in E at 1. rewrite El in E. cbn [andb orb] in E.
    rewrite E in I2. exact I2.
  - assert (Ea : isAlnum c = (isUpper c || isLower c) || isDigit c)
      by reflexivity.
    rewrite Ea.
    destruct (isDigit c) eqn:Ed; destruct (isUpper c || isLower c) eqn:El;
      cbn [orb negb]; rewrite ?Ed; try reflexivity.
    exact I3.
Qed.

Lemma formatting_type_of_styled_witness :
  let s := codepoints "2 cats" in
  (hasFormatting s = false /\ existsb (N.eqb planck_h) s = false) /\
  getFormattingType (toBold s)
  = (if existsb isAlnum s then Bold else Regular) /\
  getFormattingType (toItalic s)
  = (if existsb isItalicLetter s then Italic else Regular) /\
  getFormattingType (toBoldItalic s)
  = match find isAlnum s with
    | Some c => if isDigit c then Bold else BoldItalic
    | None => Regular
    end.
Proof.
  cbn zeta. split; [split; reflexivity|].
  exact (formatting_type_of_styled (codepoints "2 cats") eq_refl eq_refl).
Defined.

End TextFormatting.

(** ** The scoring matcher *)

Section ScoringMatcher.

Import Scoring.
Lemma insertByScore_perm {A} (m : A * Z) (l : list (A * Z)) :
  Permutation (insertByScore m l) (m :: l).
Proof.
  induction l as [|x l IH]; simpl; [reflexivity|].
  destruct (snd x <=? snd m)%Z; [reflexivity|].
  rewrite IH. apply perm_swap.
Qed.

Lemma sortByScore_perm {A} (l : list (A * Z)) :
  Permutation (sortByScore l) l.
Proof.
  induction l as [|m l IH]; simpl; [reflexivity|].
  rewrite insertByScore_perm. now apply perm_skip.
Qed.

Lemma insertByScore_sorted {A} (m : A * Z) (l : list (A * Z)) :
  StronglySorted (fun a b => (snd b <= snd a)%Z) l ->
  StronglySorted (fun a b => (snd b <= snd a)%Z) (insertByScore m l).
Proof.
  induction l as [|x l IH]; simpl; intros H.
  - repeat constructor.
  - inversion H as [|? ? Hl Hx]; subst.
    destruct (Z.leb_spec (snd x) (snd m)) as [Hle|Hgt].
    + constructor; [exact H|]. constructor; [exact Hle|].
      rewrite Forall_forall in *. intros y Hy. specialize (Hx y Hy). lia.
    + constructor; [now apply IH|].
      rewrite (insertByScore_perm m l).
      constructor; [lia | exact Hx].
Qed.

Lemma sortByScore_sorted {A} (l : list (A * Z)) :
  StronglySorted (fun a b => (snd b <= snd a)%Z) (sortByScore l).
Proof.
  induction l as [|m l IH]; simpl; [constructor|].
  now apply insertByScore_sorted.
Qed.

Lemma insertByScore_ties {A} (z : Z) (m : A * Z) (l : list (A * Z)) :
  filter (fun x => (snd x =? z)%Z) (insertByScore m l)
  = filter (fun x => (snd x =? z)%Z) (m :: l).
Proof.
  induction l as [|x l IH]; [reflexivity|].
  cbn [insertByScore].
  destruct (Z.leb_spec (snd x) (snd m)) as [Hle|Hgt]; [reflexivity|].
  cbn [filter] in *. rewrite IH.
  destruct (Z.eqb_spec (snd m) z), (Z.eqb_spec (snd x) z);
    try reflexivity. lia.
Qed.

Lemma sortByScore_ties {A} (z : Z) (l : list (A * Z)) :
  filter (fun x => (snd x =? z)%Z) (sortByScore l)
  = filter (fun x => (snd x =? z)%Z) l.
Proof.
  induction l as [|m l IH]; [reflexivity|].
  cbn [sortByScore]. rewrite insertByScore_ties. cbn [filter].
  now rewrite IH.
Qed.


Lemma scored_pairs (q : str) (l : list StoredResponse) :
  filter (fun m => (0 <? snd m)%Z) (map (fun r => (r, score q r)) l)
  = map (fun r => (r, score q r)) (filter (fun r => (0 <? score q r)%Z) l).
Proof.
  induction l as [|r l IH]; simpl; [reflexivity|].
  destruct (0 <? score q r)%Z; simpl; now rewrite IH.
Qed.

Lemma consistent_perm (q : str) (l l' : list (StoredResponse * Z)) :
  Permutation l' l ->
  Forall (fun m => snd m = score q (fst m)) l ->
  Forall (fun m => snd m = score q (fst m)) l'.
Proof. intros H Hl. now rewrite H. Qed.

Lemma consistent_pairs (q : str) (l : list StoredResponse) :
  Forall (fun m => snd m = score q (fst m)) (map (fun r => (r, score q r)) l).
Proof. apply Forall_forall. intros m Hm. apply in_map_iff in Hm as (r & <- & _). reflexivity. Qed.

Lemma sorted_map_fst (q : str) (l : list (StoredResponse * Z)) :
  Forall (fun m => snd m = score q (fst m)) l ->
  StronglySorted (fun a b => (snd b <= snd a)%Z) l ->
  StronglySorted (fun a b => (score q b <= score q a)%Z) (map fst l).
Proof.
  induction l as [|m l IH]; simpl; intros Hc Hs; [constructor|].
  inversion Hc as [|? ? Hm Hc']; inversion Hs as [|? ? Hs' Hf]; subst.
  constructor; [now apply IH|].
  rewrite Forall_forall in *. intros r Hr.
  apply in_map_iff in Hr as (x & <- & Hx).
  specialize (Hf x Hx). specialize (Hc' x Hx). lia.
Qed.

Lemma filter_map_fst (q : str) (z : Z) (l : list (StoredResponse * Z)) :
  Forall (fun m => snd m = score q (fst m)) l ->
  filter (fun r => (score q r =? z)%Z) (map fst l)
  = map fst (filter (fun m => (snd m =? z)%Z) l).
Proof.
  induction l as [|m l IH]; simpl; intros Hc; [reflexivity|].
  inversion Hc as [|? ? Hm Hc']; subst. rewrite <- Hm.
  destruct (snd m =? z)%Z; simpl; now rewrite IH.
Qed.

Lemma map_fst_pairs (q : str) (l : list StoredResponse) :
  map fst (map (fun r => (r, score q r)) l) = l.
Proof. rewrite map_map. simpl. apply map_id. Qed.

Lemma score_exact (q : str) (r : StoredResponse) :
  exact_count r -> (Z.abs (score q r) <= 2 ^ 53)%Z.
Proof.
  unfold exact_count, score.
  destruct (usage_count r) as [n|], (titleStartsWith q r),
    (contentIncludes q r); lia.
Qed.

(** X15.  With usage counts of at most [2^53 - 110] in absolute value,
    for which the additions of the code are exact, the scoring matcher
    returns the stored responses whose score is positive, each as often
    as it is stored, ordered by score from the highest to the lowest;
    every score in the result is at most [2^53]. *)
Theorem fetchLocalSuggestions_sorted
    (storage : option (list StoredResponse)) (prefix : str) :
  let list := match storage with Some l => l | None => [] end in
  let q := toLowerCase prefix in
  let result := fetchLocalSuggestions storage prefix in
  Forall exact_count list ->
  Permutation result (filter (fun r => (0 <? score q r)%Z) list) /\
  StronglySorted (fun a b => (score q b <= score q a)%Z) result /\
  Forall (fun r => (0 < score q r <= 2 ^ 53)%Z) result.
Proof.
  cbn zeta. unfold fetchLocalSuggestions. cbn zeta.
  set (list := match storage with Some l => l | None => [] end).
  set (q := toLowerCase prefix).
  intros Hexact.
  rewrite scored_pairs.
  set (pos := filter (fun r => (0 <? score q r)%Z) list).
  assert (Hperm : Permutation
                    (map fst (sortByScore (map (fun r => (r, score q r)) pos)))
                    pos).
  { rewrite sortByScore_perm. now rewrite map_fst_pairs. }
  split; [exact Hperm|]. split.
  - apply sorted_map_fst; [|apply sortByScore_sorted].
    apply (consistent_perm q (map (fun r => (r, score q r)) pos));
      [apply sortByScore_perm | apply consistent_pairs].
  - rewrite Hperm. apply Forall_forall. intros r Hr.
    apply filter_In in Hr as [Hin Hpos].
    apply Z.ltb_lt in Hpos.
    rewrite Forall_forall in Hexact.
    pose proof (score_exact q r (Hexact r Hin)). lia.
Qed.

(** "than" is looked up in three stored responses: the first has the
    word in its content and three uses, the second has it at the start
    of its title and in its content and no usage count, the third does
    not have it and its usage count is negative.  The second comes
    first with 110 points, the first follows with 13. *)
Lemma fetchLocalSuggestions_sorted_witness :
  let a := {| response := hi_long; usage_count := Some 3%Z |} in
  let b := {| response := thanks; usage_count := None |} in
  let c := {| response := hi_short; usage_count := Some (-5)%Z |} in
  let q := toLowerCase (lit "Than") in
  let result := fetchLocalSuggestions (Some [a; b; c]) (lit "Than") in
  Forall exact_count [a; b; c] /\
  result = [b; a] /\ score q b = 110%Z /\ score q a = 13%Z /\
  StronglySorted (fun x y => (score q y <= score q x)%Z) result.
Proof.
  cbn zeta.
  assert (H : Forall exact_count
                [ {| response := hi_long; usage_count := Some 3%Z |};
                  {| response := thanks; usage_count := None |};
                  {| response := hi_short; usage_count := Some (-5)%Z |} ]).
  { repeat constructor; unfold exact_count; cbn [usage_count]; lia. }
  split; [exact H|].
  split; [reflexivity|]. split; [reflexivity|]. split; [reflexivity|].
  exact (proj1 (proj2 (fetchLocalSuggestions_sorted
                         (Some [ {| response := hi_long;
                                    usage_count := Some 3%Z |};
                                 {| response := thanks;
                                    usage_count := None |};
                                 {| response := hi_short;
                                    usage_count := Some (-5)%Z |} ])
                         (lit "Than") H))).
Defined.

(** X16.  The scoring matcher keeps the storage order among responses of
    equal score: for every score, the responses with that score appear
    in the result in the order in which they are stored. *)
Theorem fetchLocalSuggestions_ties
    (storage : option (list StoredResponse)) (prefix : str) (z : Z) :
  let list := match storage with Some l => l | None => [] end in
  let q := toLowerCase prefix in
  filter (fun r => (score q r =? z)%Z) (fetchLocalSuggestions storage prefix)
  = filter (fun r => (score q r =? z)%Z)
      (filter (fun r => (0 <? score q r)%Z) list).
Proof.
  cbn zeta. unfold fetchLocalSuggestions. cbn zeta.
  set (list := match storage with Some l => l | None => [] end).
  set (q := toLowerCase prefix).
  rewrite scored_pairs.
  set (pos := filter (fun r => (0 <? score q r)%Z) list).
  rewrite filter_map_fst.
  - rewrite sortByScore_ties, <- (filter_map_fst q) by apply consistent_pairs.
    now rewrite map_fst_pairs.
  - apply (consistent_perm q (map (fun r => (r, score q r)) pos));
      [apply sortByScore_perm | apply consistent_pairs].
Qed.

End ScoringMatcher.

(** ** Where extraction and replacement agree *)

Section CurrentWordCommit.

Lemma no_ws_app (a b : str) : no_ws (a ++ b) -> no_ws a /\ no_ws b.
Proof.
  unfold no_ws. rewrite forallb_app. intros H.
  now apply andb_true_iff in H.
Qed.

Lemma word_break_no_ws (x : str) : at_word_break x -> no_ws x -> x = [].
Proof.
  intros [->|(p & c & -> & Hc)] H; [reflexivity|].
  apply no_ws_app in H as [_ H]. unfold no_ws in H. simpl in H.
  rewrite Hc in H. discriminate.
Qed.

Lemma word_break_suffix (p x : str) :
  at_word_break (p ++ x) -> x <> [] -> at_word_break x.
Proof.
  intros [H|(q & c & H & Hc)] Hx.
  - apply app_eq_nil in H as [_ ->]. congruence.
  - right. destruct (exists_last Hx) as (x' & c' & ->).
    rewrite app_assoc in H. apply app_inj_tail in H as [_ ->].
    now exists x', c.
Qed.

(** The run that ends a text is determined by the text. *)
Lemma run_ending_at_unique (t w1 w2 : str) :
  run_ending_at t w1 -> run_ending_at t w2 -> w1 = w2.
Proof.
  intros (p1 & H1 & N1 & B1) (p2 & H2 & N2 & B2).
  rewrite H1 in H2. apply app_eq_app in H2 as (x & [[Hp Hw]|[Hp Hw]]).
  - subst p1 w2. apply no_ws_app in N2 as [Nx _].
    destruct x as [|c x]; [reflexivity|].
    assert (Hb : at_word_break (c :: x))
      by (apply (word_break_suffix p2); [assumption | discriminate]).
    now rewrite (word_break_no_ws _ Hb Nx).
  - subst p2 w1. apply no_ws_app in N1 as [Nx _].
    destruct x as [|c x]; [reflexivity|].
    assert (Hb : at_word_break (c :: x))
      by (apply (word_break_suffix p1); [assumption | discriminate]).
    now rewrite (word_break_no_ws _ Hb Nx).
Qed.

Lemma getCurrentText_lastWord (w : World) (t : str) :
  caretText w = Some t -> getCurrentText w = lastWord t.
Proof.
  unfold caretText, getCurrentText.
  destruct (is_contenteditable (element w)).
  - destruct (selection w); [|discriminate]. now intros [= <-].
  - destruct (is_field (element w)); [|discriminate].
    rewrite substring_0. now intros [= <-].
Qed.

Lemma getCurrentText_run (w : World) (t : str) :
  caretText w = Some t -> ~ at_word_break t ->
  run_ending_at t (getCurrentText w).
Proof.
  intros Ht Hb. rewrite (getCurrentText_lastWord w t Ht).
  destruct (last_word_of_run t _ (lastWord_spec t)) as [H|H];
    [contradiction | exact H].
Qed.

Lemma only_delims_no_ws (t word pre : str) (P : ascii -> Prop) :
  t = pre ++ word ->
  (forall c, In c t -> is_ws c = true -> P c) ->
  (forall c, In c word -> ~ P c) ->
  no_ws word.
Proof.
  intros Ht Hd Hw. unfold no_ws. apply forallb_forall. intros c Hc.
  destruct (is_ws c) eqn:E; [|reflexivity].
  exfalso. apply (Hw c Hc). apply Hd; [|exact E].
  rewrite Ht. apply in_or_app. now right.
Qed.

(** X3.  Where extraction and replacement agree in a text field whose
    value and whose suggestion text have no line break that the field
    does not keep: when the text before the caret does not end in
    whitespace and its only whitespace characters are spaces and line
    feeds, Tab replaces exactly the current word: the text before the
    word and the text after the caret stay, and the caret is put
    behind the suggestion. *)
Theorem commit_replaces_current_word_in_field (now now' : Z) (w : World)
    (r : ResponseRecord) (t : str) :
  native (element w) ->
  currentSuggestion w = Some r ->
  selectionStart (element w) <= length (value (element w)) ->
  storable (element w) (value (element w)) ->
  storable (element w) (suggestionText r) ->
  caretText w = Some t ->
  ~ at_word_break t ->
  (forall c, In c t -> is_ws c = true -> c = space \/ c = newline) ->
  let w' := handleKeydown (lit "Tab") now now' w in
  exists pre,
    t = pre ++ getCurrentText w /\
    editableText w' = pre ++ suggestionText r ++ textAfterCaret w /\
    caretText w' = Some (pre ++ suggestionText r).
Proof.
  intros Hn Hr Hle Hold Hnew Ht Hb Hd. cbn zeta.
  destruct (field_commit_text now now' w r Hn Hr Hle Hold Hnew)
    as (pre & word & Hc & Hs & Hnl & Hp & He & Hc').
  rewrite Ht in Hc. injection Hc as Hc.
  assert (Hrun : run_ending_at t word).
  { exists pre. split; [exact Hc|]. split.
    - apply (only_delims_no_ws t word pre
               (fun c => c = space \/ c = newline) Hc Hd).
      intros c Hin [->| ->]; contradiction.
    - destruct Hp as [->|(p & c & -> & Hcc)]; [now left|].
      right. exists p, c. split; [reflexivity|].
      destruct Hcc as [->| ->]; reflexivity. }
  rewrite (run_ending_at_unique t _ _ (getCurrentText_run w t Ht Hb) Hrun).
  exists pre. repeat split; assumption.
Qed.

Lemma commit_replaces_current_word_in_field_witness :
  let t := lit "Dear Sam, Thank" in
  let w := handleInput 10 linkedin_com (Some [thanks])
             (create (textarea (t ++ lit " very much") 15) None) in
  let w' := handleKeydown (lit "Tab") 20 20 w in
  getCurrentText w = lit "Thank" /\
  exists pre,
    t = pre ++ getCurrentText w /\
    editableText w' = pre ++ suggestionText thanks ++ textAfterCaret w /\
    caretText w' = Some (pre ++ suggestionText thanks).
Proof.
  cbn zeta. split; [reflexivity|].
  apply (commit_replaces_current_word_in_field 20 20
           (handleInput 10 linkedin_com (Some [thanks])
              (create (textarea (lit "Dear Sam, Thank" ++ lit " very much") 15)
                 None))
           thanks (lit "Dear Sam, Thank")).
  - split; reflexivity.
  - reflexivity.
  - simpl. lia.
  - apply storableb_spec. reflexivity.
  - apply storableb_spec. reflexivity.
  - reflexivity.
  - intros [H|(p & c & H & Hc)]; [discriminate|].
    apply (f_equal (@rev ascii)) in H. rewrite rev_app_distr in H.
    simpl in H. injection H as H _. subst c. discriminate.
  - intros c Hin Hws. simpl in Hin.
    repeat (destruct Hin as [<-|Hin]; [first [discriminate | now left]|]).
    destruct Hin.
Defined.

(** X4.  The same in a contenteditable region, where the replacement looks
    for spaces only: when the text before the caret does not end in
    whitespace and its only whitespace characters are spaces, Tab
    replaces exactly the current word. *)
Theorem commit_replaces_current_word_in_region (now now' : Z) (w : World)
    (r : ResponseRecord) (b : Boundary) (t : str) :
  is_contenteditable (element w) = true ->
  currentSuggestion w = Some r ->
  selection w = Some b ->
  valid_boundary (textNodes (element w)) b ->
  caretText w = Some t ->
  ~ at_word_break t ->
  (forall c, In c t -> is_ws c = true -> c = space) ->
  let w' := handleKeydown (lit "Tab") now now' w in
  exists pre,
    t = pre ++ getCurrentText w /\
    editableText w' = pre ++ suggestionText r ++ textAfterCaret w /\
    caretText w' = Some (pre ++ suggestionText r).
Proof.
  intros Hce Hr Hs Hv Ht Hb Hd. cbn zeta.
  assert (Hne : textNodes (element w) <> []).
  { intros E. apply Hb. left.
    unfold caretText in Ht. rewrite Hce, Hs, E in Ht.
    injection Ht as <-. destruct b as [i o|k]; simpl.
    - destruct i, o; reflexivity.
    - destruct k; reflexivity. }
  destruct (region_commit_text now now' w r b Hce Hr Hs Hv Hne)
    as (pre & word & Hc & Hsp & Hp & He & Hc').
  rewrite Ht in Hc. injection Hc as Hc.
  assert (Hrun : run_ending_at t word).
  { exists pre. split; [exact Hc|]. split.
    - apply (only_delims_no_ws t word pre (fun c => c = space) Hc Hd).
      intros c Hin ->. contradiction.
    - destruct Hp as [->|(p & ->)]; [now left|].
      right. now exists p, space. }
  rewrite (run_ending_at_unique t _ _ (getCurrentText_run w t Ht Hb) Hrun).
  exists pre. repeat split; assumption.
Qed.

Lemma commit_replaces_current_word_in_region_witness :
  let t := lit "Dear Sam, Thank" in
  let w := handleInput 10 linkedin_com (Some [thanks])
             (create (editable [lit "Dear Sam, "; lit "Thank"; lit " you"])
                (Some (InText 1 5))) in
  let w' := handleKeydown (lit "Tab") 20 20 w in
  getCurrentText w = lit "Thank" /\
  exists pre,
    t = pre ++ getCurrentText w /\
    editableText w' = pre ++ suggestionText thanks ++ textAfterCaret w /\
    caretText w' = Some (pre ++ suggestionText thanks).
Proof.
  cbn zeta. split; [reflexivity|].
  apply (commit_replaces_current_word_in_region 20 20
           (handleInput 10 linkedin_com (Some [thanks])
              (create (editable [lit "Dear Sam, "; lit "Thank"; lit " you"])
                 (Some (InText 1 5))))
           thanks (InText 1 5) (lit "Dear Sam, Thank")).
  - reflexivity.
  - reflexivity.
  - reflexivity.
  - simpl. lia.
  - reflexivity.
  - intros [H|(p & c & H & Hc)]; [discriminate|].
    apply (f_equal (@rev ascii)) in H. rewrite rev_app_distr in H.
    simpl in H. injection H as H _. subst c. discriminate.
  - intros c Hin Hws. simpl in Hin.
    repeat (destruct Hin as [<-|Hin]; [first [discriminate | reflexivity]|]).
    destruct Hin.
Defined.

End CurrentWordCommit.

(** ** What is shown, and when *)

Section ShownOverlay.

Import Shown.
Lemma Qlt_bool_true (a b : Q) : Qlt_bool a b = true <-> (a < b)%Q.
Proof.
  unfold Qlt_bool. rewrite negb_true_iff.
  split; intros H.
  - apply Qnot_le_lt. intros Hle. apply Qle_bool_iff in Hle. congruence.
  - destruct (Qle_bool b a) eqn:E; [|reflexivity].
    apply Qle_bool_iff in E. exfalso. now apply (Qlt_not_le a b).
Qed.

Lemma Qlt_bool_false (a b : Q) : (b <= a)%Q -> Qlt_bool a b = false.
Proof.
  intros H. unfold Qlt_bool. apply negb_false_iff. now apply Qle_bool_iff.
Qed.

(** With a width reading of 0, Strategy B either appends the node as
    it is or leaves the body alone: the branches that clamp the width
    need more than 50 px behind a caret that is past the edge. *)
Lemma positionTwitterOverlay_unmeasured (env : Env) (o : Overlay)
    (w : World) :
  body w = [] ->
  body (positionTwitterOverlay env o w) = [] \/
  exists o',
    body (positionTwitterOverlay env o w) = [o'] /\
    oid o' = oid o /\ otext o' = otext o /\ oplatform o' = oplatform o /\
    omaxWidth o' = omaxWidth o.
Proof.
  intros E. unfold positionTwitterOverlay.
  destruct (selection w); [|now left]. cbn zeta.
  unfold offsetWidth. rewrite E. cbn [inDocument existsb].
  destruct (Qlt_bool (rright (containerRect env) - 5)
              (rright (rangeRect env) + 1 + 0)) eqn:H.
  - apply Qlt_bool_true in H.
    rewrite (Qlt_bool_false 100), (Qlt_bool_false 50) by lra.
    left. reflexivity.
  - right. cbn [body set_body appendChild removeNode filter app].
    eexists. repeat split.
Qed.

Lemma createGhostElement_shown (env : Env) (text cur full : str)
    (pf : Platform) (w : World) :
  overlay_inv w ->
  forall o, In o (body (createGhostElement env text cur full pf w)) ->
    oplatform o = pf /\
    otext o = match pf with linkedin => full | twitter => text end /\
    unclamped o.
Proof.
  intros Hi o. unfold createGhostElement.
  pose proof (clearGhostElement_body w Hi) as Hb.
  set (w1 := clearGhostElement w) in *.
  destruct (is_contenteditable (element w1)); cbn zeta;
    [|rewrite Hb; intros []].
  destruct pf; cbn [body set_ghostElement].
  - unfold positionLinkedInOverlay. cbn [body set_body set_next_id].
    rewrite Hb. cbn [appendChild removeNode filter app].
    intros [<-|[]]. repeat split.
  - match goal with |- In o (body (positionTwitterOverlay ?e ?x ?y)) -> _ =>
      destruct (positionTwitterOverlay_unmeasured e x y Hb)
        as [E|(o' & E & _ & Ht & Hp & Hm)]; rewrite E
    end; [intros []|].
    intros [<-|[]]. unfold unclamped. rewrite Hp, Ht, Hm. repeat split.
Qed.

Lemma length_firstn_le {A} (n : nat) (l : list A) : length (firstn n l) <= n.
Proof. rewrite length_firstn. lia. Qed.

(** What [showSuggestion] renders shows the record it was given. *)
Lemma showSuggestion_shown (env : Env) (r : ResponseRecord) (cur : str)
    (w : World) :
  overlay_inv w ->
  forall o, In o (body (showSuggestion env r cur w)) ->
    shows r o /\ unclamped o.
Proof.
  intros Hi o. unfold showSuggestion. cbn zeta.
  assert (Hi' : overlay_inv (set_currentSuggestion (Some r) w)) by exact Hi.
  destruct (_ || _); intros Ho;
    match type of Ho with
    | In o (body (createGhostElement ?e ?t ?c ?f ?p ?x)) =>
        destruct (createGhostElement_shown e t c f p x Hi' o Ho)
          as (Hp & Ht & Hu)
    end; (split; [|exact Hu]); unfold shows; rewrite Hp, Ht;
    [|reflexivity].
  set (full := suggestionText r).
  set (rest := if startsWith (toLowerCase full) (toLowerCase cur)
               then substring_from full (length cur) else full).
  assert (Hrest : exists pre, full = pre ++ rest).
  { unfold rest. destruct (startsWith _ _).
    - exists (firstn (length cur) full). unfold substring_from.
      symmetry. apply firstn_skipn.
    - now exists []. }
  destruct (Nat.ltb_spec 70 (length rest)) as [Hlong|Hshort].
  - split.
    + rewrite length_app. unfold substring.
      pose proof (length_firstn_le (70 - 3 - 0) (skipn 0 rest)).
      simpl in *. lia.
    + right. destruct Hrest as (pre & Hpre).
      exists pre, (substring rest 0 (70 - 3)), (skipn (70 - 3) rest).
      split; [|reflexivity].
      rewrite Hpre at 1. f_equal. rewrite substring_0.
      symmetry. apply firstn_skipn.
  - split; [exact Hshort | now left].
Qed.

Lemma ghost_inv_nil (w : World) : body w = [] -> ghost_inv w.
Proof. unfold ghost_inv. intros ->. intros o []. Qed.

Lemma ghost_clearSuggestion (w : World) :
  overlay_inv w -> ghost_inv (clearSuggestion w).
Proof. intros H. apply ghost_inv_nil. now apply clearSuggestion_body. Qed.

Lemma ghost_showSuggestion (env : Env) (r : ResponseRecord) (cur : str)
    (w : World) :
  overlay_inv w -> ghost_inv (showSuggestion env r cur w).
Proof.
  intros H o Ho. exists r. split; [apply showSuggestion_suggestion|].
  exact (showSuggestion_shown env r cur w H o Ho).
Qed.

Lemma ghost_handleInput_resume (env : Env)
    (storage : option (list ResponseRecord)) (cur : str) (w : World) :
  overlay_inv w -> ghost_inv (handleInput_resume env storage cur w).
Proof.
  intros H. unfold handleInput_resume. cbn zeta.
  destruct (fetchSuggestions storage cur);
    [now apply ghost_clearSuggestion|].
  destruct (filter _ _) as [|r0 rest]; [now apply ghost_clearSuggestion|].
  now apply ghost_showSuggestion.
Qed.

Lemma ghost_dispatchInput (now : Z) (w : World) :
  overlay_inv w -> ghost_inv w -> ghost_inv (dispatchInput now w).
Proof.
  intros Hi Hg. unfold dispatchInput.
  destruct (handleInput_start_cases now w) as [E|[E E']];
    destruct (handleInput_start now w) as [w' a]; cbn [fst snd] in *; subst.
  - destruct a; exact Hg.
  - now apply ghost_clearSuggestion.
Qed.

Lemma ghost_acceptSuggestion (now now' : Z) (w : World) :
  overlay_inv w -> ghost_inv w -> ghost_inv (acceptSuggestion now now' w).
Proof.
  intros Hi Hg. unfold acceptSuggestion.
  destruct (currentSuggestion w) as [r|]; [|exact Hg].
  cbn zeta. apply ghost_clearSuggestion.
  assert (H' : overlay_inv (set_suppressedUntil (now + 500)%Z w)) by exact Hi.
  destruct (is_contenteditable _).
  - now apply inv_replaceInContentEditable.
  - destruct (is_field _); [|exact H'].
    now apply inv_replaceInInput.
Qed.

Lemma ghost_step (w : World) (ev : Event) :
  overlay_inv w -> ghost_inv w -> ghost_inv (step w ev).
Proof.
  intros Hi Hg. destruct ev; cbn [step].
  - now apply ghost_dispatchInput.
  - destruct (nth_error (pending w) k); [|exact Hg].
    apply ghost_handleInput_resume. exact Hi.
  - unfold handleKeydown.
    repeat match goal with |- context [if ?c then _ else _] => destruct c end.
    + now apply ghost_acceptSuggestion.
    + now apply ghost_clearSuggestion.
    + exact Hg.
    + exact Hg.
  - destruct (timers w); [exact Hg|]. unfold deleteKeyTimeout. cbn zeta.
    destruct (_ <? _); [|exact Hg].
    apply ghost_clearSuggestion. exact Hi.
  - now apply ghost_clearSuggestion.
  - exact Hg.
  - exact Hg.
  - exact Hg.
Qed.

Lemma ghost_run (evs : list Event) (w : World) :
  overlay_inv w -> ghost_inv w -> ghost_inv (run w evs).
Proof.
  unfold run. revert w. induction evs as [|ev evs IH]; intros w Hi Hg.
  - exact Hg.
  - cbn [fold_left]. apply IH; [now apply inv_step | now apply ghost_step].
Qed.

Lemma ghost_reachable (e : Element) (sel : option Boundary)
    (evs : list Event) :
  ghost_inv (run (create e sel) evs).
Proof. apply ghost_run; [exact I | intros o []]. Qed.

(** X5.  A ghost is only shown for the active suggestion: after every
    sequence of events, a rendered overlay comes with an active
    suggestion, and its text is the text Tab would commit (LinkedIn),
    or at most 70 characters of it: an end piece, or a piece followed
    by three dots (Twitter). *)
Theorem overlay_shows_active_suggestion (e : Element)
    (sel : option Boundary) (evs : list Event) (o : Overlay) :
  let w := run (create e sel) evs in
  In o (body w) ->
  exists r, currentSuggestion w = Some r /\ shows r o.
Proof.
  cbn zeta. intros Ho.
  destruct (ghost_reachable e sel evs o Ho) as (r & Hr & Hs & _).
  now exists r.
Qed.

Lemma overlay_shows_active_suggestion_witness :
  let evs := [Input 10; Storage 0 x_com_wide (Some [thanks])] in
  let w := run (create (editable [lit "Thank"]) (Some (InText 0 5))) evs in
  exists o, In o (body w) /\
    exists r, currentSuggestion w = Some r /\ shows r o.
Proof.
  cbn zeta. eexists. split; [left; reflexivity|].
  apply (overlay_shows_active_suggestion (editable [lit "Thank"])
           (Some (InText 0 5))
           [Input 10; Storage 0 x_com_wide (Some [thanks])]).
  left. reflexivity.
Defined.

Lemma positionTwitterOverlay_layout (f : Overlay -> Q) (env : Env)
    (o : Overlay) (w : World) :
  body w = [] ->
  positionTwitterOverlay (with_layoutWidth f env) o w
  = positionTwitterOverlay env o w.
Proof.
  intros E. unfold positionTwitterOverlay, offsetWidth, fontSizeOr16.
  rewrite E. reflexivity.
Qed.

Lemma createGhostElement_layout (f : Overlay -> Q) (env : Env)
    (text cur full : str) (pf : Platform) (w : World) :
  overlay_inv w ->
  createGhostElement (with_layoutWidth f env) text cur full pf w
  = createGhostElement env text cur full pf w.
Proof.
  intros Hi. unfold createGhostElement.
  pose proof (clearGhostElement_body w Hi) as Hb.
  set (w1 := clearGhostElement w) in *.
  destruct (is_contenteditable (element w1)); [|reflexivity].
  cbn zeta. destruct pf; [reflexivity|].
  now rewrite positionTwitterOverlay_layout by exact Hb.
Qed.

Lemma handleInput_resume_layout (f : Overlay -> Q) (env : Env)
    (storage : option (list ResponseRecord)) (cur : str) (w : World) :
  overlay_inv w ->
  handleInput_resume (with_layoutWidth f env) storage cur w
  = handleInput_resume env storage cur w.
Proof.
  intros Hi. unfold handleInput_resume. cbn zeta.
  destruct (fetchSuggestions storage cur); [reflexivity|].
  destruct (filter _ _) as [|r0 rest]; [reflexivity|].
  unfold showSuggestion. cbn zeta. cbn [hostname with_layoutWidth].
  assert (Hi' : overlay_inv (set_currentSuggestion (Some r0) w)) by exact Hi.
  destruct (_ || _); now rewrite createGhostElement_layout by exact Hi'.
Qed.

(** X6.  The width of the ghost text is never used.  After every sequence
    of events, a storage callback does the same whatever width the
    layout would give to an overlay, and a rendered Twitter overlay
    carries the 300 px limit of its style: the limits of [min(250,
    available)] and [available] are never set. *)
Theorem text_width_is_never_used (e : Element) (sel : option Boundary)
    (evs : list Event) :
  let w := run (create e sel) evs in
  (forall k env storage f,
      step w (Storage k (with_layoutWidth f env) storage)
      = step w (Storage k env storage)) /\
  (forall o, In o (body w) -> oplatform o = twitter ->
             omaxWidth o = Some 300%Q).
Proof.
  cbn zeta.
  pose proof (inv_run evs (create e sel) (inv_create e sel)) as Hi.
  split.
  - intros k env storage f. cbn [step].
    destruct (nth_error _ k); [|reflexivity].
    apply handleInput_resume_layout. exact Hi.
  - intros o Ho Hp.
    destruct (ghost_reachable e sel evs o Ho) as (r & _ & _ & Hu).
    unfold unclamped in Hu. now rewrite Hp in Hu.
Qed.

(** X7.  The continuation of a lookup looks at neither the suppression
    window, nor the composition flag, nor the text that is in the
    editable by then: the suggestion it leaves is the first match of
    the text typed when the lookup started.  A lookup that is pending
    at a commit brings a suggestion back inside the window. *)
Theorem storage_callback_is_not_suppressed (w : World) (k : nat)
    (cur : str) (env : Env) (storage : option (list ResponseRecord)) :
  nth_error (pending w) k = Some cur ->
  currentSuggestion (step w (Storage k env storage))
  = hd_error (filter (matchesPrefix (toLowerCase cur))
                (match storage with Some l => l | None => [] end)).
Proof.
  intros H. cbn [step]. rewrite H. apply handleInput_resume_suggestion.
Qed.

Lemma storage_callback_is_not_suppressed_witness :
  let w := run (create (textarea (lit "Thank") 5) None)
             [Input 10; Storage 0 linkedin_com (Some [thanks]);
              Input 15; Keydown (lit "Tab") 20 20] in
  let w' := step w (Storage 0 linkedin_com (Some [thanks])) in
  (nth_error (pending w) 0 = Some (lit "Thank") /\
   currentSuggestion w = None /\ suppressedUntil w = 520%Z /\
   getCurrentText w = lit "connecting!") /\
  currentSuggestion w' = Some thanks.
Proof.
  cbn zeta. split; [repeat split|].
  exact (storage_callback_is_not_suppressed
           (run (create (textarea (lit "Thank") 5) None)
              [Input 10; Storage 0 linkedin_com (Some [thanks]);
               Input 15; Keydown (lit "Tab") 20 20])
           0 (lit "Thank") linkedin_com (Some [thanks]) eq_refl).
Defined.

(** X8.  A commit that finds nothing to replace: in a region without a
    selection or without a text node, Tab with an active suggestion
    inserts nothing and leaves the element as it is, but dismisses the
    suggestion and still opens the suppression window. *)
Theorem commit_without_target (now now' : Z) (w : World) :
  isSome (currentSuggestion w) = true ->
  is_contenteditable (element w) = true ->
  selection w = None \/ textNodes (element w) = [] ->
  let w' := handleKeydown (lit "Tab") now now' w in
  element w' = element w /\ selection w' = selection w /\
  currentSuggestion w' = None /\ suppressedUntil w' = (now + 500)%Z /\
  pending w' = pending w.
Proof.
  intros Hs Hc Ht. cbn zeta. rewrite handleKeydown_Tab by exact Hs.
  unfold acceptSuggestion.
  destruct (currentSuggestion w) as [r|]; [|discriminate].
  cbn zeta. cbn [element set_suppressedUntil]. rewrite Hc.
  assert (E : replaceInContentEditable (suggestionText r)
                (getCurrentText (set_suppressedUntil (now + 500) w)) now'
                (set_suppressedUntil (now + 500) w)
              = set_suppressedUntil (now + 500) w).
  { unfold replaceInContentEditable. cbn [selection element set_suppressedUntil].
    destruct Ht as [->| ->]; [reflexivity|].
    destruct (selection w); reflexivity. }
  rewrite E.
  destruct (clearSuggestion_frame (set_suppressedUntil (now + 500) w))
    as (F1 & F2 & _ & _ & F5 & F6 & _).
  destruct (clearSuggestion_cleared (set_suppressedUntil (now + 500) w))
    as (C1 & _).
  rewrite F1, F2, F5, F6, C1. repeat split.
Qed.

Lemma commit_without_target_witness :
  let w := set_selection None (suggested_in_region linkedin_com) in
  let w' := handleKeydown (lit "Tab") 20 20 w in
  (isSome (currentSuggestion w) = true /\
   is_contenteditable (element w) = true) /\
  element w' = element w /\ selection w' = selection w /\
  currentSuggestion w' = None /\ suppressedUntil w' = (20 + 500)%Z /\
  pending w' = pending w.
Proof.
  cbn zeta. split; [split; reflexivity|].
  exact (commit_without_target 20 20
           (set_selection None (suggested_in_region linkedin_com))
           eq_refl eq_refl (or_introl eq_refl)).
Defined.

End ShownOverlay.

(** ** More on matching *)

Section MoreMatching.

Import Scoring.
(** X17.  Two checks of [handleInput] that never decide anything: the
    second filter (lines 109-117) keeps every suggestion that
    [fetchSuggestions] returned, and once the current text of a region
    has two characters the check for an empty region (lines 93-98) is
    false. *)
Theorem handleInput_redundant_checks
    (storage : option (list ResponseRecord)) (w : World) :
  let currentText := getCurrentText w in
  filter (matchesPrefix (toLowerCase currentText))
    (fetchSuggestions storage currentText)
  = fetchSuggestions storage currentText /\
  (is_contenteditable (element w) = true -> 2 <= length currentText ->
   (length (trim (concat (textNodes (element w)))) =? 0) = false).
Proof.
  cbn zeta. split.
  - unfold fetchSuggestions. cbn zeta. apply filter_idem.
  - intros Hc Hl. apply region_has_text; [exact Hc|].
    destruct (getCurrentText w); [simpl in Hl; lia | discriminate].
Qed.

Lemma startsWith_app (s p q : str) :
  startsWith s (p ++ q) = true -> startsWith s p = true.
Proof.
  revert s. induction p as [|x p IH]; intros s H; [now destruct s|].
  destruct s as [|y s]; simpl in *; [discriminate|].
  apply andb_true_iff in H as [H1 H2]. rewrite H1. simpl. now apply IH.
Qed.

Lemma filter_narrow {A} (f g : A -> bool) (l : list A) :
  (forall x, f x = true -> g x = true) ->
  filter f (filter g l) = filter f l.
Proof.
  intros H. induction l as [|x l IH]; simpl; [reflexivity|].
  destruct (g x) eqn:Eg; simpl.
  - destruct (f x); now rewrite IH.
  - destruct (f x) eqn:Ef; [|exact IH].
    apply H in Ef. congruence.
Qed.

(** X18.  Typing on narrows the candidates, for text of the code units
    below 256, on which [toLowerCase] works letter by letter: the
    suggestions for a longer prefix are those of the shorter prefix
    that still match, in the same order; no record comes in that the
    shorter prefix did not find.  (Outside these code units the lower
    case of a letter can depend on the letters after it, and the
    property is not claimed.) *)
Theorem longer_prefix_narrows (storage : option (list ResponseRecord))
    (p q : str) :
  fetchSuggestions storage (p ++ q)
  = filter (matchesPrefix (toLowerCase (p ++ q)))
      (fetchSuggestions storage p).
Proof.
  unfold fetchSuggestions. cbn zeta. symmetry. apply filter_narrow.
  intros r. unfold matchesPrefix, toLowerCase. rewrite map_app.
  apply startsWith_app.
Qed.

Lemma startsWith_includes (s p : str) :
  startsWith s p = true -> includes s p = true.
Proof. intros H. destruct s; simpl in *; now rewrite H. Qed.

Lemma startsWith_nonempty (s p : str) :
  startsWith s p = true -> p <> [] -> s <> [].
Proof. intros H Hp ->. destruct p; [congruence | discriminate]. Qed.

Lemma In_insertByScore {A} (m x : A * Z) (l : list (A * Z)) :
  In x (m :: l) -> In x (insertByScore m l).
Proof.
  induction l as [|y l IH]; simpl; [tauto|].
  destruct (snd y <=? snd m)%Z; simpl; [tauto|].
  intros [H|[H|H]]; [right; apply IH; now left | now left |
                     right; apply IH; now right].
Qed.

Lemma In_sortByScore {A} (x : A * Z) (l : list (A * Z)) :
  In x l -> In x (sortByScore l).
Proof.
  induction l as [|m l IH]; simpl; [tauto|].
  intros [->|H]; apply In_insertByScore; [now left | right; now apply IH].
Qed.

(** X19.  The scoring matcher finds what the first-match path finds: a
    stored response whose content (or title, when the content is
    missing or empty) starts with a prefix that is not empty, and whose
    usage counter is missing or not negative, is among the results of
    [fetchLocalSuggestions]. *)
Theorem scoring_finds_prefix_matches (l : list StoredResponse)
    (prefix : str) (r : StoredResponse) :
  In r l -> prefix <> [] ->
  matchesPrefix (toLowerCase prefix) (response r) = true ->
  (match usage_count r with Some n => 0 <= n | None => True end)%Z ->
  In r (fetchLocalSuggestions (Some l) prefix).
Proof.
  intros Hin Hp Hm Hu. unfold fetchLocalSuggestions. cbn zeta.
  set (q := toLowerCase prefix) in *.
  assert (Hq : q <> []).
  { unfold q, toLowerCase. destruct prefix; [congruence | discriminate]. }
  assert (Hs : (0 < score q r)%Z).
  { unfold score, titleStartsWith, contentIncludes.
    unfold matchesPrefix, suggestionText, or_else in Hm.
    assert (Hn : (0 <= match usage_count r with Some n => n | None => 0 end)%Z)
      by (destruct (usage_count r); lia).
    destruct (content (response r)) as [[|c t]|].
    - destruct (title (response r)) as [[|c t]|];
        try (exfalso; apply (startsWith_nonempty _ _ Hm Hq); reflexivity).
      unfold toLowerCase in *. rewrite Hm. lia.
    - unfold toLowerCase in *. rewrite (startsWith_includes _ _ Hm).
      destruct (match title (response r) with
                | Some (c0 :: t0) => startsWith (map lower_char (c0 :: t0)) q
                | _ => false
                end); lia.
    - destruct (title (response r)) as [[|c t]|];
        try (exfalso; apply (startsWith_nonempty _ _ Hm Hq); reflexivity).
      unfold toLowerCase in *. rewrite Hm. lia. }
  apply in_map_iff. exists (r, score q r). split; [reflexivity|].
  apply In_sortByScore. apply filter_In. split.
  - apply in_map_iff. now exists r.
  - cbn [snd]. now apply Z.ltb_lt.
Qed.

Lemma scoring_finds_prefix_matches_witness :
  let r := {| response := thanks; usage_count := None |} in
  let other := {| response := hi_long; usage_count := Some 7%Z |} in
  In r (fetchLocalSuggestions (Some [other; r]) (lit "Than")).
Proof.
  cbn zeta.
  apply (scoring_finds_prefix_matches
           [{| response := hi_long; usage_count := Some 7%Z |};
            {| response := thanks; usage_count := None |}]
           (lit "Than") {| response := thanks; usage_count := None |}).
  - right. left. reflexivity.
  - discriminate.
  - reflexivity.
  - exact I.
Defined.

End MoreMatching.
